(** * restrum: the routing core

    A shallow embedding of the path-matching engine (the segment trie of
    [node], [parsePattern], the [router] registry of route.go) and of the
    middleware chain ([Engine], [RouterGroup], [Context.Next]) of the
    restrum HTTP framework, with the properties its design document
    states about them.

    Conventions of the embedding:
    - a Go [string] is a [string] of Rocq (a sequence of bytes);
    - a Go [map[string]T] is a [gmap string T]; the nil map and the empty
      map read alike and are both [∅];
    - a run-time panic of Go (index out of range, slice bounds out of
      range, [make] with a negative length, call of a nil function) is the
      result [Fault];
    - a [*node] owned by its parent is the node itself, the tree being
      updated functionally; a [*RouterGroup] is its position in
      [Engine.groups];
    - a [HandlerFunc] is an opaque value of a type [HandlerFunc]; what a
      call of it does to the context is given by a parameter [call]. *)

From Stdlib Require Import Ascii ZArith.
From Stdlib Require String.
From stdpp Require Import gmap strings list.
From Equations Require Import Equations.

Local Open Scope char_scope.
Local Open Scope stdpp_scope.

(** ** Results of code that may panic *)

Inductive res (A : Type) : Type :=
| Ok (a : A)
| Fault.
Arguments Ok {A} a.
Arguments Fault {A}.

#[global] Instance res_ret : MRet res := @Ok.

#[global] Instance res_bind : MBind res := λ A B k m,
  match m with
  | Ok a => k a
  | Fault => Fault
  end.

(** ** Strings as Go has them *)

(** [s[lo:hi]] *)
Definition slice (s : string) (lo hi : nat) : string :=
  String.substring lo (hi - lo) s.

(** [s[lo:]] *)
Definition sliceFrom (s : string) (lo : nat) : string :=
  String.substring lo (String.length s - lo) s.

(** [s[0]], which panics on the empty string. *)
Definition byte0 (s : string) : res ascii :=
  match s with
  | EmptyString => Fault
  | String c _ => Ok c
  end.

(** [s[1:]] on a string whose first byte has been read. *)
Definition tail1 (s : string) : string :=
  match s with
  | EmptyString => EmptyString
  | String _ t => t
  end.

(** ** parsePattern (README.md, lines 150-176) *)

(** The state of the [for] loop: [parts], [start] and [isWild]. *)
Record parseState : Type := ParseState {
  ps_parts : list string;
  ps_start : nat;
  ps_isWild : bool
}.

(** [if start != i { parts = append(parts, pattern[start:i]) }] *)
Definition appendPending (pattern : string) (start i : nat)
    (parts : list string) : list string :=
  if Nat.eqb start i then parts else parts ++ [slice pattern start i].

(** The loop [for i := 0; i < len(pattern); i++], from index [i] on.  The
    first argument bounds the number of iterations; the loop leaves as
    soon as [i] is not an index of [pattern]. *)
Fixpoint parseLoop (fuel : nat) (pattern : string) (i start : nat)
    (parts : list string) : parseState :=
  match fuel with
  | 0 => ParseState parts start false
  | S fuel' =>
      match String.get i pattern with
      | None => ParseState parts start false
      | Some c =>
          if Ascii.eqb c "/" then
            parseLoop fuel' pattern (S i) (S i)
              (appendPending pattern start i parts)
          else if Ascii.eqb c "*" then
            ParseState
              (appendPending pattern start i parts ++ [sliceFrom pattern i])
              start true
          else parseLoop fuel' pattern (S i) start parts
      end
  end.

(** [if !isWild && start < len(pattern) { parts = append(parts, pattern[start:]) }] *)
Definition parseFinish (pattern : string) (st : parseState) : list string :=
  if negb (ps_isWild st) && Nat.ltb (ps_start st) (String.length pattern)
  then ps_parts st ++ [sliceFrom pattern (ps_start st)]
  else ps_parts st.

Definition parsePattern (pattern : string) : list string :=
  parseFinish pattern (parseLoop (String.length pattern) pattern 0 0 []).

(** *** The same function by recursion on the text

    [segmentsFrom cur s] is what the loop yields on the text [s] that is
    still to be read when [cur] is the segment begun and not yet closed. *)

Definition flush (cur : string) : list string :=
  match cur with
  | EmptyString => []
  | _ => [cur]
  end.

Fixpoint segmentsFrom (cur s : string) : list string :=
  match s with
  | EmptyString => flush cur
  | String c s' =>
      if Ascii.eqb c "/" then flush cur ++ segmentsFrom EmptyString s'
      else if Ascii.eqb c "*" then flush cur ++ [s]
      else segmentsFrom (cur +:+ String c EmptyString) s'
  end.

(** ** The trie (README.md, lines 80-148) *)

(** [type node struct]: the children are owned by their parent and the
    tree has no sharing, so a [*node] below the root is the subtree. *)
#[warning="-register-all"]
Inductive node : Type := Node {
  pattern : string;
  part : string;
  children : list node;
  isWild : bool
}.

(** [&node{}] *)
Definition emptyNode : node := Node "" "" [] false.

Definition setPattern (n : node) (p : string) : node :=
  Node p (part n) (children n) (isWild n).

Definition setChildren (n : node) (cs : list node) : node :=
  Node (pattern n) (part n) cs (isWild n).

(** [child.part == part || child.isWild] *)
Definition childMatches (child : node) (p : string) : bool :=
  String.eqb (part child) p || isWild child.

(** The loop of [matchChildren] over [n.children]: the first child that
    matches, with its position in the list (the pointer the source
    returns), or [None] for [nil]. *)
Fixpoint firstMatch (cs : list node) (p : string) : option (nat * node) :=
  match cs with
  | [] => None
  | child :: cs' =>
      if childMatches child p then Some (0, child)
      else prod_map S id <$> firstMatch cs' p
  end.

Definition matchChildren (n : node) (p : string) : option (nat * node) :=
  firstMatch (children n) p.

(** [&node{part: part, isWild: part[0] == ':' || part[0] == '*'}] *)
Definition newChild (p : string) : res node :=
  c ← byte0 p;
  Ok (Node "" p [] (Ascii.eqb c ":" || Ascii.eqb c "*")).

(** [insert]: the recursion is on [height], which grows to [len(parts)].
    The child found by [matchChildren] is updated in place; a new child
    is appended to [n.children] and then filled. *)
Equations? insert (n : node) (pat : string) (parts : list string)
    (height : nat) : res node by wf (length parts - height) lt :=
  insert n pat parts height with decide (length parts = height) := {
    | left _ => Ok (setPattern n pat)
    | right _ with Equations.Prop.Logic.inspect (parts !! height) := {
        | exist _ None _ => Fault
        | exist _ (Some p) Hp with matchChildren n p := {
            | Some (pair idx child) =>
                child' ← insert child pat parts (S height);
                Ok (setChildren n (<[idx := child']> (children n)))
            | None =>
                child ← newChild p;
                child' ← insert child pat parts (S height);
                Ok (setChildren n (children n ++ [child']))
          }
      }
  }.
Proof.
  all: apply lookup_lt_Some in Hp; lia.
Qed.

(** [insert] by recursion on the segments that are still to be placed,
    [parts[height:]]. *)
Fixpoint insertParts (n : node) (pat : string) (rest : list string)
    : res node :=
  match rest with
  | [] => Ok (setPattern n pat)
  | p :: rest' =>
      match matchChildren n p with
      | Some (idx, child) =>
          child' ← insertParts child pat rest';
          Ok (setChildren n (<[idx := child']> (children n)))
      | None =>
          child ← newChild p;
          child' ← insertParts child pat rest';
          Ok (setChildren n (children n ++ [child']))
      end
  end.

(** The loop of [search] over [n.children]: the first child that matches
    [p] and under which [searchChild] finds a node. *)
Fixpoint searchChildren (searchChild : node → res (option node)) (p : string)
    (cs : list node) : res (option node) :=
  match cs with
  | [] => Ok None
  | child :: cs' =>
      if childMatches child p then
        result ← searchChild child;
        match result with
        | Some _ => Ok result
        | None => searchChildren searchChild p cs'
        end
      else searchChildren searchChild p cs'
  end.

(** [search]: the recursion descends into the children of [n]. *)
Fixpoint search (n : node) (parts : list string) (height : nat)
    : res (option node) :=
  if bool_decide (length parts = height) || isWild n then
    if String.eqb (pattern n) "" then Ok None else Ok (Some n)
  else
    match parts !! height with
    | None => Fault
    | Some p =>
        searchChildren (λ child, search child parts (S height)) p (children n)
    end.

(** [travel]: the nodes that carry a pattern, the node before its
    children, appended to [list]. *)
Fixpoint travel (n : node) (l : list node) : list node :=
  let l := if String.eqb (pattern n) "" then l else l ++ [n] in
  foldl (λ l child, travel child l) l (children n).

(** ** joinParts (route.go, lines 75-92) *)

(** [l[i]] *)
Definition index {A : Type} (l : list A) (i : nat) : res A :=
  match l !! i with
  | Some x => Ok x
  | None => Fault
  end.

(** [l[i:]], which panics when [i > len(l)]. *)
Definition sliceList {A : Type} (l : list A) (i : nat) : res (list A) :=
  if decide (i ≤ length l) then Ok (drop i l) else Fault.

(** [copy(dst[pos:], src)]: as many bytes of [src] as [dst[pos:]] holds. *)
Definition copyAt (dst : list ascii) (pos : nat) (src : string)
    : res (list ascii) :=
  if decide (pos ≤ length dst) then
    let room := length dst - pos in
    let bytes := take room (String.list_ascii_of_string src) in
    Ok (take pos dst ++ bytes ++ drop (pos + length bytes) dst)
  else Fault.

(** The first loop: [length += len(part) + 1]. *)
Definition joinLength (parts : list string) : nat :=
  foldl (λ len p, len + (String.length p + 1)) 0 parts.

(** One turn of the second loop, on the buffer [joined] and [pos];
    [last] is [length-1]. *)
Definition joinStep (last : nat) (st : list ascii * nat) (p : string)
    : res (list ascii * nat) :=
  let '(joined, pos) := st in
  joined ← copyAt joined pos p;
  let pos := pos + String.length p in
  if decide (pos < last) then
    if decide (pos < length joined)
    then Ok (<[pos := "/"%char]> joined, S pos)
    else Fault
  else Ok (joined, pos).

Fixpoint joinLoop (last : nat) (st : list ascii * nat) (parts : list string)
    : res (list ascii * nat) :=
  match parts with
  | [] => Ok st
  | p :: parts' => st' ← joinStep last st p; joinLoop last st' parts'
  end.

Definition joinParts (parts : list string) : res string :=
  match joinLength parts with
  | 0 => Fault (* make([]byte, -1) *)
  | S last =>
      let joined := replicate last "000"%char in
      st ← joinLoop last (joined, 0) parts;
      Ok (String.string_of_list_ascii st.1)
  end.

(** ** The router (route.go) *)

Section Router.

(** [HandlerFunc] values, and net/http's [ResponseWriter] and [Request]
    with [http.Error], which the core calls and does not define. *)
Context {HandlerFunc ResponseWriter httpRequest : Type}.
Variable http_Error : ResponseWriter → string → Z → ResponseWriter.
Variable reqMethod : httpRequest → string.
Variable reqURLPath : httpRequest → string.

(** [http.StatusNotFound] *)
Definition StatusNotFound : Z := 404.

Record Config : Type := mkConfig {
  AllowOrigins : list string;
  AllowMethods : list string;
  AllowCredentials : bool
}.

(** [type Context struct]; [current] is a Go [int], 64 bits wide. *)
Record Context : Type := mkContext {
  Request : httpRequest;
  ResponseWriter_ : ResponseWriter;
  Params : gmap string string;
  HTTPMethod : string;
  RoutePath : string;
  ResponseCode : Z;
  current : Z;
  config : Config;
  middleware : list HandlerFunc
}.

Definition setParams (ctx : Context) (ps : gmap string string) : Context :=
  mkContext (Request ctx) (ResponseWriter_ ctx) ps (HTTPMethod ctx)
    (RoutePath ctx) (ResponseCode ctx) (current ctx) (config ctx)
    (middleware ctx).

Definition setResponseWriter (ctx : Context) (w : ResponseWriter) : Context :=
  mkContext (Request ctx) w (Params ctx) (HTTPMethod ctx)
    (RoutePath ctx) (ResponseCode ctx) (current ctx) (config ctx)
    (middleware ctx).

Definition setCurrent (ctx : Context) (c : Z) : Context :=
  mkContext (Request ctx) (ResponseWriter_ ctx) (Params ctx) (HTTPMethod ctx)
    (RoutePath ctx) (ResponseCode ctx) c (config ctx) (middleware ctx).

Definition setMiddleware (ctx : Context) (ms : list HandlerFunc) : Context :=
  mkContext (Request ctx) (ResponseWriter_ ctx) (Params ctx) (HTTPMethod ctx)
    (RoutePath ctx) (ResponseCode ctx) (current ctx) (config ctx) ms.

(** What the call [h(ctx)] of a handler leaves in the context it was
    given, or its panic. *)
Variable call : HandlerFunc → Context → res Context.

Record router : Type := mkRouter {
  root : gmap string node;
  handlers : gmap string HandlerFunc
}.

Record handlerCfg : Type := mkHandlerCfg { Ctx : Context }.

Definition NewRouter : router := mkRouter ∅ ∅.

Definition AddRoutes (r : router) (method pat : string) (handler : HandlerFunc)
    : res router :=
  let parts := parsePattern pat in
  let key := method +:+ "_" +:+ pat in
  let roots :=
    match root r !! method with
    | Some _ => root r
    | None => <[method := emptyNode]> (root r)
    end in
  match roots !! method with
  | Some rt =>
      rt' ← insert rt pat parts 0;
      Ok (mkRouter (<[method := rt']> roots) (<[key := handler]> (handlers r)))
  | None => Fault
  end.

(** The loop of [getRoute] over the segments of the pattern found. *)
Fixpoint paramsLoop (parts searchParts : list string) (i : nat)
    (params : gmap string string) : res (gmap string string) :=
  match parts with
  | [] => Ok params
  | p :: parts' =>
      c ← byte0 p;
      if Ascii.eqb c ":" then
        v ← index searchParts i;
        paramsLoop parts' searchParts (S i) (<[tail1 p := v]> params)
      else if Ascii.eqb c "*" then
        tl ← sliceList searchParts i;
        v ← joinParts tl;
        Ok (<[tail1 p := v]> params)
      else paramsLoop parts' searchParts (S i) params
  end.

(** [getRoute]: [Ok None] is the return of [nil, nil]. *)
Definition getRoute (r : router) (method path : string)
    : res (option (node * gmap string string)) :=
  let searchParts := parsePattern path in
  match root r !! method with
  | None => Ok None
  | Some rt =>
      found ← search rt searchParts 0;
      match found with
      | Some n =>
          params ← paramsLoop (parsePattern (pattern n)) searchParts 0 ∅;
          Ok (Some (n, params))
      | None => Ok None
      end
  end.

Definition handle (r : router) (cfg : handlerCfg) : res Context :=
  let ctx := Ctx cfg in
  route ← getRoute r (HTTPMethod ctx) (RoutePath ctx);
  match route with
  | Some (n, params) =>
      let ctx := setParams ctx params in
      let key := HTTPMethod ctx +:+ "_" +:+ pattern n in
      match handlers r !! key with
      | Some h => call h ctx
      | None => Fault (* call of a nil function value *)
      end
  | None =>
      Ok (setResponseWriter ctx
            (http_Error (ResponseWriter_ ctx) "NOT FOUND" StatusNotFound))
  end.

(** ** The continuation (Context.Next) *)

(** A Go [int] after an addition: 64 bits, two's complement. *)
Definition wrapInt (z : Z) : Z := ((z + 2 ^ 63) `mod` 2 ^ 64 - 2 ^ 63)%Z.

(** [l[i]] for an [int] index. *)
Definition indexZ {A : Type} (l : list A) (i : Z) : res A :=
  if decide (i < 0)%Z then Fault else index l (Z.to_nat i).

Definition newContext (w : ResponseWriter) (r : httpRequest) (cfg : Config)
    : Context :=
  mkContext r w ∅ (reqMethod r) (reqURLPath r) 0 (-1) cfg [].

Definition Next (ctx : Context) : res Context :=
  let ctx := setCurrent ctx (wrapInt (current ctx + 1)) in
  if decide (current ctx < Z.of_nat (length (middleware ctx)))%Z then
    h ← indexZ (middleware ctx) (current ctx);
    call h ctx
  else Ok ctx.

(** ** Groups and the engine (restrum.go) *)

(** [parent] is the position of the parent group in [Engine.groups];
    the back-pointer [engine] is the engine the operations are given. *)
Record RouterGroup : Type := mkRouterGroup {
  prefix : string;
  middlewares : list HandlerFunc;
  parent : option nat
}.

(** The embedded [*RouterGroup] of the engine is [groups[0]]. *)
Record Engine : Type := mkEngine {
  engineRouter : router;
  groups : list RouterGroup;
  engineConfig : Config
}.

Definition rootGroup : nat := 0.

Definition New (cfg : list Config) : Engine :=
  let config := default (mkConfig [] [] false) (head cfg) in
  mkEngine NewRouter [mkRouterGroup "" [] None] config.

(** [e.Group(prefix)] on the group at position [g]; the result is the
    engine and the position of the new group.  [None]: [g] is not a
    group of the engine. *)
Definition Group (e : Engine) (g : nat) (pfx : string)
    : option (Engine * nat) :=
  grp ← groups e !! g;
  let newGroup := mkRouterGroup (prefix grp +:+ pfx) [] (Some g) in
  Some (mkEngine (engineRouter e) (groups e ++ [newGroup]) (engineConfig e),
        length (groups e)).

Definition Use (e : Engine) (g : nat) (mws : list HandlerFunc)
    : option Engine :=
  grp ← groups e !! g;
  let grp' := mkRouterGroup (prefix grp) (middlewares grp ++ mws) (parent grp) in
  Some (mkEngine (engineRouter e) (<[g := grp']> (groups e)) (engineConfig e)).

(** [RouterGroup.AddRoutes] *)
Definition groupAddRoutes (e : Engine) (g : nat) (method comp : string)
    (handler : HandlerFunc) : option (res Engine) :=
  grp ← groups e !! g;
  let pat := prefix grp +:+ comp in
  Some (r ← AddRoutes (engineRouter e) method pat handler;
        Ok (mkEngine r (groups e) (engineConfig e))).

(** [strings.HasPrefix(s, prefix)] *)
Definition HasPrefix (s pfx : string) : bool := String.prefix pfx s.

(** The loop of [ServeHTTP] over [e.groups]. *)
Definition assignMiddlewares (gs : list RouterGroup) (path : string)
    : list HandlerFunc :=
  foldl (λ mws group,
           if HasPrefix path (prefix group)
           then mws ++ middlewares group else mws) [] gs.

Definition ServeHTTP (e : Engine) (w : ResponseWriter) (req : httpRequest)
    : res Context :=
  let mws := assignMiddlewares (groups e) (reqURLPath req) in
  let ctx := newContext w req (engineConfig e) in
  let ctx := setMiddleware ctx mws in
  handle (engineRouter e) (mkHandlerCfg ctx).

(** ** The other registration forms, Param and the CORS middleware *)

(** [Context.Param]: the value of a missing key is the empty string. *)
Definition Param (ctx : Context) (key : string) : string :=
  default "" (Params ctx !! key).

Definition GET (e : Engine) (g : nat) (pat : string) (handler : HandlerFunc)
    : option (res Engine) :=
  groupAddRoutes e g "GET" pat handler.

Definition POST (e : Engine) (g : nat) (pat : string) (handler : HandlerFunc)
    : option (res Engine) :=
  groupAddRoutes e g "POST" pat handler.

Definition PUT (e : Engine) (g : nat) (pat : string) (handler : HandlerFunc)
    : option (res Engine) :=
  groupAddRoutes e g "PUT" pat handler.

Definition DELETE (e : Engine) (g : nat) (pat : string) (handler : HandlerFunc)
    : option (res Engine) :=
  groupAddRoutes e g "DELETE" pat handler.

(** [Engine.OPTION], which goes to the router without a group. *)
Definition OPTION (e : Engine) (pat : string) (handler : HandlerFunc)
    : res Engine :=
  r ← AddRoutes (engineRouter e) "OPTION" pat handler;
  Ok (mkEngine r (groups e) (engineConfig e)).

(** [joinStrings], that is [strings.Join]. *)
Definition joinStrings (items : list string) (sep : string) : string :=
  String.concat sep items.

(** What [CORSMiddleware] reads of the request and does to the response:
    [Header.Get], [Header().Set] and [WriteHeader] of net/http. *)
Variable reqHeaderGet : httpRequest → string → string.
Variable rwHeaderSet : ResponseWriter → string → string → ResponseWriter.
Variable rwWriteHeader : ResponseWriter → Z → ResponseWriter.

(** The loop of [CORSMiddleware] over [config.AllowOrigins]. *)
Fixpoint allowedOrigin (origins : list string) (origin : string) : string :=
  match origins with
  | [] => ""
  | o :: origins' =>
      if String.eqb o "*" || String.eqb o origin then o
      else allowedOrigin origins' origin
  end.

(** The handler that [CORSMiddleware(config)] returns, on a context. *)
Definition CORSMiddleware (cfg : Config) (ctx : Context) : res Context :=
  let origin := reqHeaderGet (Request ctx) "Origin" in
  let allowed := allowedOrigin (AllowOrigins cfg) origin in
  let w := ResponseWriter_ ctx in
  let w := if String.eqb allowed "" then w
           else rwHeaderSet w "Access-Control-Allow-Origin" allowed in
  let w := match AllowMethods cfg with
           | [] => w
           | _ => rwHeaderSet w "Access-Control-Allow-Methods"
                    (joinStrings (AllowMethods cfg) ", ")
           end in
  let w := if AllowCredentials cfg
           then rwHeaderSet w "Access-Control-Allow-Credentials" "true"
           else w in
  if String.eqb (reqMethod (Request ctx)) "OPTIONS" then
    Ok (setResponseWriter ctx (rwWriteHeader w 200))
  else Next (setResponseWriter ctx w).

End Router.

Arguments router : clear implicits.
Arguments Context : clear implicits.
Arguments handlerCfg : clear implicits.
Arguments RouterGroup : clear implicits.
Arguments Engine : clear implicits.

(** ** Predicates of the properties *)

(** [containsByte c s]: the byte [c] occurs in [s]. *)
Fixpoint containsByte (c : ascii) (s : string) : bool :=
  match s with
  | EmptyString => false
  | String c' s' => Ascii.eqb c' c || containsByte c s'
  end.

(** A segment of a pattern without wildcard: not empty, no [/], no [*]. *)
Definition plainSegment (s : string) : Prop :=
  s ≠ "" ∧ containsByte "/" s = false ∧ containsByte "*" s = false.

(** [allPatterns P d n]: every node of the tree [n], whose root is at
    depth [d], has a stored pattern that satisfies [P] at its depth. *)
Fixpoint allPatterns (P : nat → string → Prop) (d : nat) (n : node) : Prop :=
  match n with
  | Node pat _ cs _ =>
      P d pat ∧
      (fix all (cs : list node) : Prop :=
         match cs with
         | [] => True
         | c :: cs' => allPatterns P (S d) c ∧ all cs'
         end) cs
  end.

(** [atDepth n d m]: [m] is a node of the tree [n], [d] levels below its
    root. *)
Inductive atDepth : node → nat → node → Prop :=
| atDepth_here (n : node) : atDepth n 0 n
| atDepth_child (n c : node) (d : nat) (m : node) :
    c ∈ children n → atDepth c d m → atDepth n (S d) m.

(** A stored pattern that marks a route ends at the depth of its node. *)
Definition endsAtDepth (d : nat) (pat : string) : Prop :=
  pat ≠ "" → length (parsePattern pat) = d.

(** The routers that registrations build from a new one. *)
Inductive reachable {HandlerFunc : Type} : router HandlerFunc → Prop :=
| reachable_new : reachable NewRouter
| reachable_add (r : router HandlerFunc) (method pat : string)
    (handler : HandlerFunc) (r' : router HandlerFunc) :
    reachable r → AddRoutes r method pat handler = Ok r' → reachable r'.

(** The key of [router.handlers] for a route. *)
Definition handlerKey (method pat : string) : string :=
  method +:+ "_" +:+ pat.

(** What a stored pattern of the tree of [method] obeys in a router with
    the handler table [hs]: it ends at the depth of its node and has its
    handler. *)
Definition registered {HandlerFunc : Type} (hs : gmap string HandlerFunc)
    (method : string) (d : nat) (pat : string) : Prop :=
  pat ≠ "" →
  length (parsePattern pat) = d ∧ is_Some (hs !! handlerKey method pat).

Definition routerInv {HandlerFunc : Type} (r : router HandlerFunc) : Prop :=
  ∀ method rt, root r !! method = Some rt →
    allPatterns (registered (handlers r) method) 0 rt.

(** [part[0] == ':' || part[0] == '*'], false of the empty segment. *)
Definition startsWild (p : string) : bool :=
  match p with
  | EmptyString => false
  | String c _ => Ascii.eqb c ":" || Ascii.eqb c "*"
  end.

(** The segment of a node and its wild mark, which insertions leave as
    they are. *)
Definition label (n : node) : string * bool := (part n, isWild n).

(** [allNodes R n]: every node of the tree [n] satisfies [R]. *)
Fixpoint allNodes (R : node → Prop) (n : node) : Prop :=
  match n with
  | Node _ _ cs _ =>
      R n ∧
      (fix all (cs : list node) : Prop :=
         match cs with
         | [] => True
         | c :: cs' => allNodes R c ∧ all cs'
         end) cs
  end.

(** The labels of the children of one node, as insertion keeps them:
    segments not empty and pairwise different, the wild mark set for the
    segments that begin with [:] or [*], and a wild child, if any, the
    last. *)
Definition siblingsOk (ls : list (string * bool)) : Prop :=
  NoDup ls.*1
  ∧ Forall (λ l, l.1 ≠ "" ∧ l.2 = startsWild l.1) ls
  ∧ ∀ i p, ls !! i = Some (p, true) → S i = length ls.

Definition wellShaped (n : node) : Prop :=
  allNodes (λ n, siblingsOk (label <$> children n)) n.

(** [allTrails P trail n]: every node of the tree [n] has a stored
    pattern that satisfies [P] with the labels of the nodes from below
    the root of the whole tree down to it, where [trail] holds the labels
    down to [n]. *)
Fixpoint allTrails (P : list (string * bool) → string → Prop)
    (trail : list (string * bool)) (n : node) : Prop :=
  match n with
  | Node pat _ cs _ =>
      P trail pat ∧
      (fix all (cs : list node) : Prop :=
         match cs with
         | [] => True
         | c :: cs' => allTrails P (trail ++ [label c]) c ∧ all cs'
         end) cs
  end.

(** A segment of a pattern is placed on a node that has this segment or
    is wild. *)
Definition placedOn (seg : string) (l : string * bool) : Prop :=
  l.1 = seg ∨ l.2 = true.

(** The stored pattern, if any, was placed along the trail. *)
Definition placedAlong (trail : list (string * bool)) (pat : string) : Prop :=
  pat ≠ "" → Forall2 placedOn (parsePattern pat) trail.

(** [matched parts h n m]: how [search], entered on [n] at height [h],
    comes to return [m]. *)
Inductive matched (parts : list string) : nat → node → node → Prop :=
| matched_here (h : nat) (n : node) :
    length parts = h ∨ isWild n = true →
    pattern n ≠ "" →
    matched parts h n n
| matched_below (h : nat) (n : node) (p : string) (c m : node) :
    length parts ≠ h → isWild n = false →
    parts !! h = Some p →
    c ∈ children n → childMatches c p = true →
    matched parts (S h) c m →
    matched parts h n m.

(** A pattern all of whose segments begin with neither [:] nor [*]. *)
Definition staticPattern (pat : string) : Prop :=
  Forall (λ seg, startsWild seg = false) (parsePattern pat).

(** The routers built by registrations of such patterns only. *)
Inductive staticReachable {HandlerFunc : Type} : router HandlerFunc → Prop :=
| staticReachable_new : staticReachable NewRouter
| staticReachable_add (r : router HandlerFunc) (method pat : string)
    (handler : HandlerFunc) (r' : router HandlerFunc) :
    staticReachable r → staticPattern pat →
    AddRoutes r method pat handler = Ok r' → staticReachable r'.

(** The node reached from [n] by following, segment after segment, the
    first child that matches. *)
Fixpoint walk (n : node) (rest : list string) : option node :=
  match rest with
  | [] => Some n
  | p :: rest' => ic ← firstMatch (children n) p; walk ic.2 rest'
  end.

(** The pattern stored at the end of the walk, empty when there is no
    such node. *)
Definition patAt (n : node) (rest : list string) : string :=
  default "" (pattern <$> walk n rest).

(** What [getRoute] returns, with the pattern of the node in the place of
    the node. *)
Definition resolvedPattern {HandlerFunc : Type} (r : router HandlerFunc)
    (method path : string) : res (option (string * gmap string string)) :=
  match getRoute r method path with
  | Ok (Some (n, params)) => Ok (Some (pattern n, params))
  | Ok None => Ok None
  | Fault => Fault
  end.

(** The engines that [New], [Group], [Use] and the registration forms
    build. *)
Inductive reachableEngine {HandlerFunc : Type} : Engine HandlerFunc → Prop :=
| reachableEngine_new (cfg : list Config) : reachableEngine (New cfg)
| reachableEngine_group (e : Engine HandlerFunc) (g : nat) (pfx : string)
    (e' : Engine HandlerFunc) (g' : nat) :
    reachableEngine e → Group e g pfx = Some (e', g') → reachableEngine e'
| reachableEngine_use (e : Engine HandlerFunc) (g : nat)
    (mws : list HandlerFunc) (e' : Engine HandlerFunc) :
    reachableEngine e → Use e g mws = Some e' → reachableEngine e'
| reachableEngine_route (e : Engine HandlerFunc) (g : nat)
    (method comp : string) (handler : HandlerFunc) (e' : Engine HandlerFunc) :
    reachableEngine e →
    groupAddRoutes e g method comp handler = Some (Ok e') →
    reachableEngine e'
| reachableEngine_option (e : Engine HandlerFunc) (pat : string)
    (handler : HandlerFunc) (e' : Engine HandlerFunc) :
    reachableEngine e → OPTION e pat handler = Ok e' → reachableEngine e'.

(** The group at position [g] of the list: the root group is the first
    and has the empty prefix; another group comes after its parent and
    its prefix begins with the prefix of the parent. *)
Definition groupOk {HandlerFunc : Type} (gs : list (RouterGroup HandlerFunc))
    (g : nat) (grp : RouterGroup HandlerFunc) : Prop :=
  match parent grp with
  | None => g = 0 ∧ prefix grp = ""
  | Some p =>
      p < g ∧ ∃ pg s, gs !! p = Some pg ∧ prefix grp = prefix pg +:+ s
  end.

(** The children that the insertion of [pat] makes below a node without
    children, for the segments [rest] still to be placed: one child after
    the other, the last with the pattern. *)
Fixpoint chainBelow (pat : string) (rest : list string) : list node :=
  match rest with
  | [] => []
  | p :: rest' =>
      [Node (match rest' with [] => pat | _ => "" end) p
         (chainBelow pat rest') (startsWild p)]
  end.

(** An entry of [AllowOrigins] that the loop of [CORSMiddleware] stops at
    for the [Origin] header [origin]. *)
Definition originMatches (origin o : string) : Prop :=
  o = "*" ∨ o = origin.

(** [o] is the first entry of [origins] that is [*] or [origin]. *)
Definition firstAllowed (origins : list string) (origin o : string) : Prop :=
  ∃ before after,
    origins = before ++ o :: after
    ∧ originMatches origin o
    ∧ Forall (λ x, ¬ originMatches origin x) before.

(** ** A small instance

    Handlers are numbers, a response is the list of the [http.Error]
    calls made on it, a request is its method and path, and calling a
    handler leaves the context as it is, except that the handler [0]
    panics. *)

Definition logResponse : Type := list (string * Z).

Definition logError (w : logResponse) (msg : string) (code : Z) : logResponse :=
  w ++ [(msg, code)].

Definition quietCall (h : nat) (ctx : Context nat logResponse (string * string))
    : res (Context nat logResponse (string * string)) :=
  match h with
  | 0 => Fault
  | _ => Ok ctx
  end.

(** The router after [AddRoutes("GET", "/hello/:name", 7)]. *)
Definition helloRouter : router nat :=
  mkRouter
    {["GET" := Node "" "" [Node "" "hello"
                             [Node "/hello/:name" ":name" [] true] false] false]}
    {["GET_/hello/:name" := 7]}.

(** An engine on it whose root group has the middleware [0]. *)
Definition helloEngine : Engine nat :=
  mkEngine helloRouter [mkRouterGroup "" [0] None] (mkConfig [] [] false).

(** The engine after [Group("/api")], its child [Group("/v1")], and a
    [Use] on each of the two. *)
Definition apiEngine : Engine nat :=
  mkEngine NewRouter
    [mkRouterGroup "" [] None;
     mkRouterGroup "/api" [1] (Some 0);
     mkRouterGroup "/api/v1" [2] (Some 1)]
    (mkConfig [] [] false).

(** Calling the handler [h] writes its number on the response. *)
Definition noteCall (h : nat) (ctx : Context nat logResponse (string * string))
    : res (Context nat logResponse (string * string)) :=
  Ok (setResponseWriter ctx (ResponseWriter_ ctx ++ [("handler", Z.of_nat h)])).

(** For the CORS middleware: a response is the list of the headers set on
    it with the status written, a request is its method and its [Origin]
    header, and calling a handler leaves the context as it is. *)
Definition headerResponse : Type := list (string * string) * Z.

Definition setHeader (w : headerResponse) (key value : string)
    : headerResponse :=
  (w.1 ++ [(key, value)], w.2).

Definition writeStatus (w : headerResponse) (code : Z) : headerResponse :=
  (w.1, code).

Definition originHeader (req : string * string) (name : string) : string :=
  if String.eqb name "Origin" then req.2 else "".

Definition passCall (h : nat)
    (ctx : Context nat headerResponse (string * string))
    : res (Context nat headerResponse (string * string)) :=
  Ok ctx.

(** * Properties *)

(** ** String lemmas *)

Lemma string_app_nil_l (t : string) : "" +:+ t = t.
Proof. reflexivity. Qed.

Lemma string_app_cons (c : ascii) (s t : string) :
  String c s +:+ t = String c (s +:+ t).
Proof. reflexivity. Qed.

Ltac string_app_simpl :=
  repeat (rewrite string_app_nil_l || rewrite string_app_cons).

Lemma string_app_nil_r (s : string) : s +:+ "" = s.
Proof. induction s as [|c s IH]; string_app_simpl; [done|by f_equal]. Qed.

Lemma string_app_assoc (s t u : string) : (s +:+ t) +:+ u = s +:+ t +:+ u.
Proof. induction s as [|c s IH]; string_app_simpl; [done|by f_equal]. Qed.

Lemma string_length_app (s t : string) :
  String.length (s +:+ t) = String.length s + String.length t.
Proof.
  induction s as [|c s IH]; string_app_simpl; simpl; [done|by f_equal].
Qed.

Lemma get_app_r (s t : string) (n : nat) :
  String.get (String.length s + n) (s +:+ t) = String.get n t.
Proof. induction s as [|c s IH]; string_app_simpl; simpl; done. Qed.

Lemma substring_all (s : string) :
  String.substring 0 (String.length s) s = s.
Proof. induction s as [|c s IH]; simpl; [done|by f_equal]. Qed.

Lemma substring_app_r (s t : string) (n m : nat) :
  String.substring (String.length s + n) m (s +:+ t) = String.substring n m t.
Proof. induction s as [|c s IH]; string_app_simpl; simpl; done. Qed.

Lemma substring_prefix (s t : string) :
  String.substring 0 (String.length s) (s +:+ t) = s.
Proof.
  induction s as [|c s IH]; string_app_simpl; simpl;
    [by destruct t|by f_equal].
Qed.

Lemma slice_mid (pre cur rest : string) :
  slice (pre +:+ cur +:+ rest) (String.length pre)
        (String.length pre + String.length cur) = cur.
Proof.
  unfold slice.
  replace (String.length pre + String.length cur - String.length pre)
    with (String.length cur) by lia.
  rewrite <- (Nat.add_0_r (String.length pre)) at 1.
  rewrite substring_app_r. apply substring_prefix.
Qed.

Lemma sliceFrom_app (pre rest : string) :
  sliceFrom (pre +:+ rest) (String.length pre) = rest.
Proof.
  unfold sliceFrom. rewrite string_length_app.
  replace (String.length pre + String.length rest - String.length pre)
    with (String.length rest) by lia.
  rewrite <- (Nat.add_0_r (String.length pre)) at 1.
  rewrite substring_app_r. apply substring_all.
Qed.

Lemma appendPending_flush (pre cur rest : string) (parts : list string) :
  appendPending (pre +:+ cur +:+ rest) (String.length pre)
    (String.length pre + String.length cur) parts = parts ++ flush cur.
Proof.
  unfold appendPending.
  destruct cur as [|c cur].
  - simpl. rewrite Nat.add_0_r, Nat.eqb_refl. by rewrite app_nil_r.
  - destruct (Nat.eqb_spec (String.length pre)
                (String.length pre + String.length (String c cur))) as [E|_].
    + simpl in E. lia.
    + by rewrite slice_mid.
Qed.

(** The loop and its closing test compute [segmentsFrom]. *)
Lemma parseLoop_segmentsFrom (rest : string) :
  ∀ (fuel : nat) (pre cur : string) (parts : list string),
    String.length rest ≤ fuel →
    parseFinish (pre +:+ cur +:+ rest)
      (parseLoop fuel (pre +:+ cur +:+ rest)
         (String.length pre + String.length cur) (String.length pre) parts)
    = parts ++ segmentsFrom cur rest.
Proof.
  induction rest as [|c rest IH]; intros fuel pre cur parts Hfuel.
  - assert (Hget : String.get (String.length pre + String.length cur)
                     (pre +:+ cur +:+ "") = None).
    { rewrite get_app_r.
      rewrite <- (Nat.add_0_r (String.length cur)), get_app_r. done. }
    assert (Hst : parseLoop fuel (pre +:+ cur +:+ "")
              (String.length pre + String.length cur) (String.length pre) parts
            = ParseState parts (String.length pre) false).
    { destruct fuel; simpl; [done|]. by rewrite Hget. }
    rewrite Hst. unfold parseFinish. simpl.
    rewrite string_app_nil_r, string_length_app.
    destruct cur as [|c cur]; simpl.
    + rewrite Nat.add_0_r, Nat.ltb_irrefl. by rewrite app_nil_r.
    + destruct (Nat.ltb_spec (String.length pre)
                  (String.length pre + S (String.length cur))); [|lia].
      by rewrite sliceFrom_app.
  - destruct fuel as [|fuel]; [simpl in Hfuel; lia|].
    simpl in Hfuel.
    cbn [parseLoop segmentsFrom].
    assert (Hget : String.get (String.length pre + String.length cur)
                     (pre +:+ cur +:+ String c rest) = Some c).
    { rewrite get_app_r.
      rewrite <- (Nat.add_0_r (String.length cur)), get_app_r. done. }
    rewrite Hget.
    destruct (Ascii.eqb c "/") eqn:Hslash; [|destruct (Ascii.eqb c "*") eqn:Hstar].
    + rewrite appendPending_flush.
      specialize (IH fuel (pre +:+ cur +:+ String c "") "" (parts ++ flush cur)).
      rewrite !string_app_assoc, !string_length_app in IH.
      rewrite !string_app_cons, !string_app_nil_l in IH. simpl in IH.
      rewrite Nat.add_0_r in IH.
      replace (S (String.length pre + String.length cur))
        with (String.length pre + (String.length cur + 1)) by lia.
      rewrite IH by lia. by rewrite app_assoc.
    + rewrite appendPending_flush. unfold parseFinish. simpl.
      rewrite <- string_app_assoc, <- string_length_app, sliceFrom_app.
      by rewrite app_assoc.
    + specialize (IH fuel pre (cur +:+ String c "") parts).
      rewrite !string_app_assoc, !string_length_app in IH.
      rewrite !string_app_cons, !string_app_nil_l in IH. simpl in IH.
      replace (S (String.length pre + String.length cur))
        with (String.length pre + (String.length cur + 1)) by lia.
      by rewrite IH by lia.
Qed.

Lemma parsePattern_segmentsFrom (pattern : string) :
  parsePattern pattern = segmentsFrom "" pattern.
Proof.
  pose proof (parseLoop_segmentsFrom pattern (String.length pattern) "" "" [])
    as H.
  simpl in H. by apply H.
Qed.

(** ** What parsePattern yields *)

Lemma flush_nonempty (cur : string) : Forall (λ p, p ≠ "") (flush cur).
Proof. destruct cur; simpl; repeat constructor; done. Qed.

Lemma segmentsFrom_nonempty (s : string) :
  ∀ cur, Forall (λ p, p ≠ "") (segmentsFrom cur s).
Proof.
  induction s as [|c s IH]; intros cur; simpl.
  - apply flush_nonempty.
  - destruct (Ascii.eqb c "/"); [|destruct (Ascii.eqb c "*")].
    + apply Forall_app; split; [apply flush_nonempty|apply IH].
    + apply Forall_app; split; [apply flush_nonempty|].
      by repeat constructor.
    + apply IH.
Qed.

Lemma parsePattern_nonempty (s : string) :
  Forall (λ p, p ≠ "") (parsePattern s).
Proof. rewrite parsePattern_segmentsFrom. apply segmentsFrom_nonempty. Qed.

Lemma containsByte_app (c : ascii) (s t : string) :
  containsByte c (s +:+ t) = containsByte c s || containsByte c t.
Proof.
  induction s as [|c' s IH]; string_app_simpl; simpl; [done|].
  by rewrite IH, orb_assoc.
Qed.

Lemma segmentsFrom_wildcard (pre post : string) :
  ∀ cur, containsByte "*" pre = false →
    segmentsFrom cur (pre +:+ String "*" post)
    = segmentsFrom cur pre ++ [String "*" post].
Proof.
  induction pre as [|c pre IH]; intros cur Hpre; string_app_simpl.
  - done.
  - simpl in Hpre. apply orb_false_elim in Hpre as [Hc Hpre].
    cbn [segmentsFrom]. rewrite Hc.
    destruct (Ascii.eqb c "/").
    + by rewrite IH, app_assoc.
    + by rewrite IH.
Qed.

Lemma segmentsFrom_plain_prefix (s rest : string) :
  ∀ cur, containsByte "/" s = false → containsByte "*" s = false →
    segmentsFrom cur (s +:+ rest) = segmentsFrom (cur +:+ s) rest.
Proof.
  induction s as [|c s IH]; intros cur Hs Hw; string_app_simpl.
  - by rewrite string_app_nil_r.
  - simpl in Hs, Hw.
    apply orb_false_elim in Hs as [Hc Hs].
    apply orb_false_elim in Hw as [Hc' Hw].
    cbn [segmentsFrom]. rewrite Hc, Hc', IH by done.
    by rewrite string_app_assoc.
Qed.

Lemma segmentsFrom_plain (s : string) :
  ∀ cur, containsByte "*" s = false →
    containsByte "/" cur = false → containsByte "*" cur = false →
    Forall plainSegment (segmentsFrom cur s).
Proof.
  assert (Hflush : ∀ cur, containsByte "/" cur = false →
            containsByte "*" cur = false → Forall plainSegment (flush cur)).
  { intros [|c cur] H1 H2; simpl; repeat constructor; done. }
  induction s as [|c s IH]; intros cur Hs H1 H2; simpl.
  - by apply Hflush.
  - simpl in Hs. apply orb_false_elim in Hs as [Hc Hs]. rewrite Hc.
    destruct (Ascii.eqb c "/") eqn:Hslash.
    + apply Forall_app; split; [by apply Hflush|by apply IH].
    + apply IH; [done| |]; rewrite containsByte_app; simpl.
      * by rewrite H1, Hslash.
      * by rewrite H2, Hc.
Qed.

Lemma parsePattern_concat (segs : list string) :
  Forall plainSegment segs →
  parsePattern (String.concat "/" segs) = segs.
Proof.
  rewrite parsePattern_segmentsFrom.
  induction 1 as [|s segs (Hne & Hs & Hw) Hsegs IH]; [done|].
  destruct segs as [|s' segs].
  - simpl. rewrite <- (string_app_nil_r s) at 1.
    rewrite segmentsFrom_plain_prefix by done. simpl. by destruct s.
  - change (String.concat "/" (s :: s' :: segs))
      with (s +:+ String "/" (String.concat "/" (s' :: segs))).
    rewrite segmentsFrom_plain_prefix by done.
    cbn [segmentsFrom]. simpl (Ascii.eqb _ _).
    rewrite IH. by destruct s.
Qed.

(** ** joinParts is the join with [/] *)

Lemma list_ascii_length (s : string) :
  length (String.list_ascii_of_string s) = String.length s.
Proof. induction s as [|c s IH]; simpl; [done|by f_equal]. Qed.

Lemma list_ascii_app (s t : string) :
  String.list_ascii_of_string (s +:+ t)
  = String.list_ascii_of_string s ++ String.list_ascii_of_string t.
Proof.
  induction s as [|c s IH]; string_app_simpl; simpl; [done|by f_equal].
Qed.

Lemma joinLength_from (parts : list string) :
  ∀ acc, foldl (λ len p, len + (String.length p + 1)) acc parts
         = acc + joinLength parts.
Proof.
  unfold joinLength.
  induction parts as [|p parts IH]; intros acc; simpl; [lia|].
  rewrite IH, (IH (String.length p + 1)). lia.
Qed.

Lemma joinLength_cons (p : string) (parts : list string) :
  joinLength (p :: parts) = String.length p + 1 + joinLength parts.
Proof. unfold joinLength at 1. simpl. by rewrite joinLength_from. Qed.

Lemma copyAt_fresh (w : list ascii) (k : nat) (p : string) :
  String.length p ≤ k →
  copyAt (w ++ replicate k "000"%char) (length w) p
  = Ok ((w ++ String.list_ascii_of_string p)
          ++ replicate (k - String.length p) "000"%char).
Proof.
  intros Hk. unfold copyAt.
  rewrite length_app, length_replicate.
  destruct (decide (length w ≤ length w + k)) as [_|]; [|lia].
  replace (length w + k - length w) with k by lia.
  rewrite (take_ge (String.list_ascii_of_string p))
    by (rewrite list_ascii_length; lia).
  rewrite take_app_length, drop_app_add, drop_replicate, list_ascii_length.
  by rewrite app_assoc.
Qed.

Lemma joinStep_last (w : list ascii) (p : string) :
  joinStep (length w + String.length p)
    (w ++ replicate (String.length p) "000"%char, length w) p
  = Ok (w ++ String.list_ascii_of_string p, length w + String.length p).
Proof.
  unfold joinStep. rewrite copyAt_fresh by lia. cbn [mbind res_bind].
  destruct (decide (length w + String.length p < length w + String.length p));
    [lia|].
  rewrite Nat.sub_diag. simpl. by rewrite app_nil_r.
Qed.

Lemma joinStep_more (w : list ascii) (k : nat) (p : string) :
  String.length p < k →
  joinStep (length w + k) (w ++ replicate k "000"%char, length w) p
  = Ok (((w ++ String.list_ascii_of_string p) ++ ["/"%char])
          ++ replicate (k - String.length p - 1) "000"%char,
        S (length w + String.length p)).
Proof.
  intros Hk. unfold joinStep. rewrite copyAt_fresh by lia.
  cbn [mbind res_bind].
  destruct (decide (length w + String.length p < length w + k)); [|lia].
  rewrite length_app, length_replicate, length_app, list_ascii_length.
  destruct (decide (length w + String.length p
                    < length w + String.length p + (k - String.length p)));
    [|lia].
  replace (k - String.length p) with (S (k - String.length p - 1)) by lia.
  replace (length w + String.length p)
    with (length (w ++ String.list_ascii_of_string p) + 0) at 1
    by (rewrite length_app, list_ascii_length; lia).
  rewrite insert_app_r. cbn [replicate]. simpl (<[0:=_]> _).
  rewrite (cons_middle _ (w ++ _)), app_assoc.
  repeat f_equal. lia.
Qed.

Lemma joinLoop_cons (last : nat) (st : list ascii * nat) (p : string)
    (parts : list string) :
  joinLoop last st (p :: parts)
  = (st' ← joinStep last st p; joinLoop last st' parts).
Proof. reflexivity. Qed.

Lemma joinLoop_concat (parts : list string) :
  ∀ (p : string) (w : list ascii) (k : nat),
    k + 1 = joinLength (p :: parts) →
    joinLoop (length w + k) (w ++ replicate k "000"%char, length w)
      (p :: parts)
    = Ok (w ++ String.list_ascii_of_string (String.concat "/" (p :: parts)),
          length w + k).
Proof.
  induction parts as [|p' parts IH]; intros p w k Hk;
    rewrite joinLength_cons in Hk; rewrite joinLoop_cons.
  - unfold joinLength in Hk. simpl in Hk.
    assert (k = String.length p) as -> by lia.
    by rewrite joinStep_last.
  - pose proof (joinLength_cons p' parts) as Hk'.
    rewrite joinStep_more by lia. cbn [mbind res_bind].
    set (w' := (w ++ String.list_ascii_of_string p) ++ ["/"%char]).
    assert (Hw' : length w' = length w + String.length p + 1).
    { unfold w'. rewrite !length_app, list_ascii_length. simpl. lia. }
    replace (S (length w + String.length p)) with (length w') by lia.
    replace (length w + k) with (length w' + (k - String.length p - 1)) by lia.
    rewrite IH by lia.
    do 2 f_equal. unfold w'.
    change (String.concat "/" (p :: p' :: parts))
      with (p +:+ String "/" (String.concat "/" (p' :: parts))).
    rewrite list_ascii_app. simpl. by rewrite <- !app_assoc.
Qed.

Lemma joinParts_concat (p : string) (parts : list string) :
  joinParts (p :: parts) = Ok (String.concat "/" (p :: parts)).
Proof.
  unfold joinParts.
  pose proof (joinLength_cons p parts) as Hlen.
  destruct (joinLength (p :: parts)) as [|last] eqn:E; [lia|].
  assert (Hk : last + 1 = joinLength (p :: parts)) by lia.
  pose proof (joinLoop_concat parts p [] last Hk) as H.
  cbn [length app Nat.add] in H.
  rewrite H. cbn [mbind res_bind fst].
  by rewrite String.string_of_list_ascii_of_string.
Qed.

(** ** The trie *)

Lemma node_ind' (P : node → Prop) :
  (∀ pat p cs w, Forall P cs → P (Node pat p cs w)) → ∀ n, P n.
Proof.
  intros H. fix IH 1. intros [pat p cs w]. apply H.
  induction cs as [|c cs IHcs]; constructor; [apply IH|exact IHcs].
Qed.

Lemma allPatterns_unfold (P : nat → string → Prop) (d : nat) (n : node) :
  allPatterns P d n
  ↔ P d (pattern n) ∧ Forall (allPatterns P (S d)) (children n).
Proof.
  destruct n as [pat p cs w]. simpl.
  assert (Hcs : (fix all (cs : list node) : Prop :=
                   match cs with
                   | [] => True
                   | c :: cs' => allPatterns P (S d) c ∧ all cs'
                   end) cs ↔ Forall (allPatterns P (S d)) cs).
  { induction cs as [|c cs IH]; [by split|].
    rewrite Forall_cons. by rewrite IH. }
  by rewrite Hcs.
Qed.

Lemma allPatterns_atDepth (P : nat → string → Prop) (n m : node) (d : nat) :
  atDepth n d m → ∀ h, allPatterns P h n → allPatterns P (h + d) m.
Proof.
  induction 1 as [n|n c d m Hc _ IH]; intros h Hn.
  - by rewrite Nat.add_0_r.
  - apply allPatterns_unfold in Hn as [_ Hcs].
    rewrite Forall_forall in Hcs.
    replace (h + S d) with (S h + d) by lia. apply IH. by apply Hcs.
Qed.

Lemma search_unfold (n : node) (parts : list string) (height : nat) :
  search n parts height
  = if bool_decide (length parts = height) || isWild n then
      if String.eqb (pattern n) "" then Ok None else Ok (Some n)
    else
      match parts !! height with
      | None => Fault
      | Some p =>
          searchChildren (λ child, search child parts (S height)) p
            (children n)
      end.
Proof. by destruct n. Qed.

(** [search] does not panic when it is entered at a height within the
    path. *)
Lemma search_no_fault (n : node) :
  ∀ (parts : list string) (height : nat),
    height ≤ length parts → ∃ o, search n parts height = Ok o.
Proof.
  induction n as [pat p cs w IH] using node_ind'; intros parts height Hh.
  rewrite search_unfold. cbn [pattern isWild children].
  destruct (bool_decide (length parts = height) || w) eqn:Hend.
  { destruct (String.eqb pat ""); eauto. }
  apply orb_false_elim in Hend as [Hlen _].
  apply bool_decide_eq_false in Hlen.
  destruct (parts !! height) as [q|] eqn:Hq.
  2: { apply lookup_ge_None in Hq. lia. }
  induction IH as [|c cs Hc _ IHcs]; simpl; [eauto|].
  destruct (childMatches c q); [|done].
  destruct (Hc parts (S height)) as [[m|] ->]; [lia| |]; simpl; eauto.
Qed.

(** A node that [search] returns carries a route and lies in the tree
    searched, no deeper than the path is long. *)
Lemma search_found (n : node) :
  ∀ (parts : list string) (height : nat) (m : node),
    height ≤ length parts →
    search n parts height = Ok (Some m) →
    pattern m ≠ "" ∧ ∃ d, atDepth n d m ∧ height + d ≤ length parts.
Proof.
  induction n as [pat p cs w IH] using node_ind'; intros parts height m Hh.
  rewrite search_unfold. cbn [pattern isWild children].
  destruct (bool_decide (length parts = height) || w) eqn:Hend.
  { destruct (String.eqb_spec pat "") as [|Hpat]; [done|].
    intros [= <-]. split; [done|].
    exists 0. split; [constructor|lia]. }
  apply orb_false_elim in Hend as [Hlen _].
  apply bool_decide_eq_false in Hlen.
  destruct (parts !! height) as [q|]; [|done].
  assert (Hsub : ∀ c, c ∈ cs → c ∈ children (Node pat p cs w)) by done.
  revert Hsub. generalize (Node pat p cs w) as n. intros n.
  induction IH as [|c cs Hc _ IHcs]; simpl; [done|]; intros Hsub Hres.
  assert (Hrest : ∀ c', c' ∈ cs → c' ∈ children n).
  { intros c' Hc'. apply Hsub. by right. }
  destruct (childMatches c q); [|by apply IHcs].
  destruct (search c parts (S height)) as [[m'|]|] eqn:Hs; simpl in Hres;
    [|by apply IHcs|done].
  injection Hres as <-.
  destruct (Hc parts (S height) m') as (Hm & d & Hd & Hle); [lia|done|].
  split; [done|]. exists (S d). split; [|lia].
  eapply atDepth_child; [|done]. apply Hsub. by left.
Qed.

(** *** insert *)

Lemma firstMatch_Some (cs : list node) (p : string) (idx : nat) (c : node) :
  firstMatch cs p = Some (idx, c)
  ↔ cs !! idx = Some c ∧ childMatches c p = true
    ∧ ∀ j c', j < idx → cs !! j = Some c' → childMatches c' p = false.
Proof.
  revert idx c. induction cs as [|c0 cs IH]; intros idx c; simpl.
  { split; [done|]. by intros [? _]. }
  destruct (childMatches c0 p) eqn:Hc0.
  - split.
    + intros [= <- <-]. split_and!; [done..|]. intros; lia.
    + intros (Hidx & Hc & Hbefore). destruct idx as [|idx].
      * simpl in Hidx. by injection Hidx as ->.
      * specialize (Hbefore 0 c0). simpl in Hbefore.
        rewrite Hbefore in Hc0; [done|lia|done].
  - split.
    + destruct (firstMatch cs p) as [[i c1]|] eqn:Hf; simpl; [|done].
      intros [= <- <-].
      destruct (proj1 (IH i c1) eq_refl) as (Hi & Hc1 & Hb).
      split_and!; [done..|].
      intros [|j] c' Hj; simpl; [by intros [= <-]|].
      apply Hb. lia.
    + intros (Hidx & Hc & Hbefore). destruct idx as [|idx].
      { simpl in Hidx. injection Hidx as ->. congruence. }
      simpl in Hidx.
      assert (Hf : firstMatch cs p = Some (idx, c)); [|by rewrite Hf].
      apply IH. split_and!; [done..|].
      intros j c' Hj Hl. apply (Hbefore (S j) c'); [lia|done].
Qed.

Lemma firstMatch_None (cs : list node) (p : string) :
  firstMatch cs p = None ↔ Forall (λ c, childMatches c p = false) cs.
Proof.
  induction cs as [|c cs IH]; simpl; [by split|].
  rewrite Forall_cons. destruct (childMatches c p).
  - split; [done|]. by intros [? _].
  - destruct (firstMatch cs p); simpl.
    + split; [done|]. intros [_ H]. by apply IH in H.
    + split; [|done]. intros _. split; [done|]. by apply IH.
Qed.

Lemma insert_insertParts (n : node) (pat : string) (parts : list string)
    (height : nat) :
  height ≤ length parts →
  insert n pat parts height = insertParts n pat (drop height parts).
Proof.
  funelim (insert n pat parts height); intros Hh.
  - subst height. by rewrite drop_all.
  - match goal with H : @lookup _ _ _ _ _ _ = None |- _ =>
      pose proof (lookup_ge_None_1 _ _ H) end. lia.
  - match goal with H : @lookup _ _ _ _ _ _ = Some _ |- _ =>
      rewrite (drop_S _ _ _ H); pose proof (lookup_lt_Some _ _ _ H) end.
    cbn [insertParts].
    match goal with H : matchChildren _ _ = _ |- _ => rewrite H end.
    match goal with IH : _ → insert _ _ _ _ = insertParts _ _ _ |- _ =>
      rewrite IH by lia end.
    done.
  - match goal with H : @lookup _ _ _ _ _ _ = Some _ |- _ =>
      rewrite (drop_S _ _ _ H); pose proof (lookup_lt_Some _ _ _ H) end.
    cbn [insertParts].
    match goal with H : matchChildren _ _ = _ |- _ => rewrite H end.
    destruct (newChild p) as [child|]; [|done]. cbn [mbind res_bind].
    match goal with IH : ∀ _, _ → insert _ _ _ _ = insertParts _ _ _ |- _ =>
      rewrite IH by lia end.
    done.
Qed.

Lemma insert_from_root (n : node) (pat : string) (parts : list string) :
  insert n pat parts 0 = insertParts n pat parts.
Proof. rewrite insert_insertParts by lia. by rewrite drop_0. Qed.

Lemma newChild_Ok (p : string) :
  p ≠ "" → ∃ w, newChild p = Ok (Node "" p [] w).
Proof. destruct p as [|c p]; [done|]. intros _. simpl. eauto. Qed.

Lemma newChild_inv (p : string) (child : node) :
  newChild p = Ok child →
  p ≠ "" ∧ pattern child = "" ∧ part child = p ∧ children child = [].
Proof. destruct p as [|c p]; [done|]. by intros [= <-]. Qed.

(** Insertion of non-empty segments does not panic. *)
Lemma insertParts_total (pat : string) (rest : list string) :
  Forall (λ p, p ≠ "") rest →
  ∀ n, ∃ n', insertParts n pat rest = Ok n'.
Proof.
  induction 1 as [|p rest Hp _ IH]; intros n; simpl; [eauto|].
  destruct (matchChildren n p) as [[idx child]|].
  - destruct (IH child) as [child' ->]. simpl. eauto.
  - destruct (newChild_Ok p Hp) as [w ->]. cbn [mbind res_bind].
    destruct (IH (Node "" p [] w)) as [child' ->]. simpl. eauto.
Qed.

(** Insertion leaves the segment and the wild mark of the node alone. *)
Lemma insertParts_shape (pat : string) (rest : list string) (n n' : node) :
  insertParts n pat rest = Ok n' →
  part n' = part n ∧ isWild n' = isWild n.
Proof.
  destruct rest as [|p rest]; simpl.
  { by intros [= <-]. }
  destruct (matchChildren n p) as [[idx child]|].
  - destruct (insertParts child pat rest); simpl; [|done]. by intros [= <-].
  - destruct (newChild p); simpl; [|done].
    destruct (insertParts _ pat rest); simpl; [|done]. by intros [= <-].
Qed.

Lemma childMatches_shape (c c' : node) (p : string) :
  part c' = part c → isWild c' = isWild c →
  childMatches c' p = childMatches c p.
Proof. unfold childMatches. by intros -> ->. Qed.

(** A property of the stored patterns that holds of the empty pattern at
    every depth, and of [pat] at the depth where it is stored, survives
    the insertion of [pat]. *)
Lemma insertParts_allPatterns (P : nat → string → Prop) (pat : string)
    (rest : list string) :
  (∀ d, P d "") →
  ∀ (d : nat) (n n' : node),
    P (d + length rest) pat →
    allPatterns P d n →
    insertParts n pat rest = Ok n' →
    allPatterns P d n'.
Proof.
  intros Hempty.
  induction rest as [|p rest IH]; intros d n n' Hpat Hn; simpl.
  { intros [= <-]. rewrite Nat.add_0_r in Hpat.
    apply allPatterns_unfold in Hn as [_ Hcs].
    apply allPatterns_unfold. by destruct n. }
  simpl in Hpat. replace (d + S (length rest)) with (S d + length rest)
    in Hpat by lia.
  apply allPatterns_unfold in Hn as [Hroot Hcs].
  unfold matchChildren.
  destruct (firstMatch (children n) p) as [[idx child]|] eqn:Hm.
  - apply firstMatch_Some in Hm as (Hidx & _ & _).
    destruct (insertParts child pat rest) as [child'|] eqn:Hc; simpl; [|done].
    intros [= <-]. apply allPatterns_unfold. destruct n as [pt q cs w].
    cbn [pattern children setChildren] in *. split; [done|].
    apply Forall_insert; [done|].
    eapply IH; [done| |done].
    rewrite Forall_forall in Hcs. apply Hcs.
    by eapply list_elem_of_lookup_2.
  - destruct (newChild p) as [child|] eqn:Hnew; simpl; [|done].
    apply newChild_inv in Hnew as (_ & Hcp & _ & Hcc).
    destruct (insertParts child pat rest) as [child'|] eqn:Hc; simpl; [|done].
    intros [= <-]. apply allPatterns_unfold. destruct n as [pt q cs w].
    cbn [pattern children setChildren] in *. split; [done|].
    apply Forall_app. split; [done|]. constructor; [|done].
    eapply IH; [done| |done].
    apply allPatterns_unfold. rewrite Hcp, Hcc. by split.
Qed.

(** Inserting the pattern a second time changes nothing. *)
Lemma insertParts_idem (pat : string) (rest : list string) :
  ∀ n n', insertParts n pat rest = Ok n' → insertParts n' pat rest = Ok n'.
Proof.
  induction rest as [|p rest IH]; intros n n'; simpl.
  { intros [= <-]. by destruct n. }
  unfold matchChildren.
  destruct (firstMatch (children n) p) as [[idx child]|] eqn:Hm.
  - apply firstMatch_Some in Hm as (Hidx & Hmatch & Hbefore).
    destruct (insertParts child pat rest) as [child'|] eqn:Hc; simpl; [|done].
    intros [= <-]. destruct n as [pt q cs w].
    cbn [pattern children setChildren part isWild] in *.
    pose proof (lookup_lt_Some _ _ _ Hidx) as Hlt.
    destruct (insertParts_shape _ _ _ _ Hc) as [Hpart Hwild].
    assert (Hm' : firstMatch (<[idx:=child']> cs) p = Some (idx, child')).
    { apply firstMatch_Some. split_and!.
      - by apply list_lookup_insert_eq.
      - by rewrite (childMatches_shape child).
      - intros j c' Hj. rewrite list_lookup_insert_ne by lia. by apply Hbefore. }
    rewrite Hm', (IH _ _ Hc). simpl.
    by rewrite list_insert_insert_eq.
  - apply firstMatch_None in Hm.
    destruct (newChild p) as [child|] eqn:Hnew; simpl; [|done].
    apply newChild_inv in Hnew as (_ & _ & Hcpart & _).
    destruct (insertParts child pat rest) as [child'|] eqn:Hc; simpl; [|done].
    intros [= <-]. destruct n as [pt q cs w].
    cbn [pattern children setChildren part isWild] in *.
    destruct (insertParts_shape _ _ _ _ Hc) as [Hpart Hwild].
    assert (Hm' : firstMatch (cs ++ [child']) p = Some (length cs, child')).
    { apply firstMatch_Some. split_and!.
      - by rewrite lookup_app_r, Nat.sub_diag.
      - unfold childMatches. rewrite Hpart, Hcpart, String.eqb_refl. done.
      - intros j c' Hj. rewrite lookup_app_l by done. intros Hl.
        rewrite Forall_forall in Hm. apply Hm.
        by eapply list_elem_of_lookup_2. }
    rewrite Hm', (IH _ _ Hc). simpl.
    replace (length cs) with (length cs + 0) by lia.
    by rewrite insert_app_r.
Qed.

(** ** The registry *)

Lemma allPatterns_impl (P Q : nat → string → Prop) (n : node) :
  (∀ d pat, P d pat → Q d pat) →
  ∀ d, allPatterns P d n → allPatterns Q d n.
Proof.
  intros HPQ. induction n as [pat p cs w IH] using node_ind'; intros d Hn.
  apply allPatterns_unfold in Hn as [Hroot Hcs].
  apply allPatterns_unfold. split; [by apply HPQ|].
  cbn [children] in *. rewrite Forall_forall in IH, Hcs.
  apply Forall_forall. intros c Hc. by apply IH, Hcs.
Qed.

Lemma allPatterns_emptyNode (P : nat → string → Prop) (d : nat) :
  P d "" → allPatterns P d emptyNode.
Proof. intros H. apply allPatterns_unfold. by split. Qed.

Section RegistryProperties.

Context {HandlerFunc : Type}.
Implicit Types (r : router HandlerFunc) (h : HandlerFunc).

(** [AddRoutes] does not panic, and what it leaves. *)
Lemma AddRoutes_Ok r (method pat : string) h :
  ∃ rt',
    insertParts (default emptyNode (root r !! method)) pat (parsePattern pat)
    = Ok rt'
    ∧ AddRoutes r method pat h
      = Ok (mkRouter (<[method := rt']> (root r))
              (<[handlerKey method pat := h]> (handlers r))).
Proof.
  destruct (insertParts_total pat (parsePattern pat)
              (parsePattern_nonempty pat)
              (default emptyNode (root r !! method))) as [rt' Hrt].
  exists rt'. split; [done|]. unfold AddRoutes.
  destruct (root r !! method) as [rt|] eqn:Hroot; simpl in Hrt.
  - rewrite Hroot, insert_from_root, Hrt. done.
  - rewrite lookup_insert_eq, insert_from_root, Hrt. simpl.
    by rewrite insert_insert_eq.
Qed.

Lemma AddRoutes_inv r (method pat : string) h (r' : router HandlerFunc) :
  AddRoutes r method pat h = Ok r' →
  ∃ rt',
    insertParts (default emptyNode (root r !! method)) pat (parsePattern pat)
    = Ok rt'
    ∧ root r' = <[method := rt']> (root r)
    ∧ handlers r' = <[handlerKey method pat := h]> (handlers r).
Proof.
  destruct (AddRoutes_Ok r method pat h) as (rt' & Hrt & ->).
  intros [= <-]. by exists rt'.
Qed.

Lemma registered_mono (hs : gmap string HandlerFunc) (key : string) h
    (method : string) (d : nat) (pat : string) :
  registered hs method d pat → registered (<[key := h]> hs) method d pat.
Proof.
  intros H Hne. destruct (H Hne) as [Hlen Hsome]. split; [done|].
  rewrite lookup_insert. by case_decide.
Qed.

Lemma reachable_routerInv r : reachable r → routerInv r.
Proof.
  induction 1 as [|r method pat h r' _ IH Hadd].
  { intros method rt. unfold NewRouter. simpl. by rewrite lookup_empty. }
  apply AddRoutes_inv in Hadd as (rt' & Hrt & Hroot & Hhs).
  intros method' rt0. rewrite Hroot, Hhs, lookup_insert.
  case_decide as Hm.
  - subst method'. intros [= <-].
    eapply (insertParts_allPatterns _ pat (parsePattern pat)); [| | |exact Hrt].
    + by intros d Hne.
    + intros _. split; [done|]. by rewrite lookup_insert_eq.
    + destruct (root r !! method) as [rt|] eqn:Hold; simpl.
      * eapply allPatterns_impl; [|by apply IH].
        intros d q. apply registered_mono.
      * by apply allPatterns_emptyNode.
  - intros Hold. eapply allPatterns_impl; [|by apply IH].
    intros d q. apply registered_mono.
Qed.

(** The extraction loop of [getRoute] stays within the path when the
    pattern has no more segments than the path. *)
Lemma paramsLoop_no_fault (searchParts : list string) (parts : list string) :
  Forall (λ p, p ≠ "") parts →
  ∀ (i : nat) (params : gmap string string),
    i + length parts ≤ length searchParts →
    ∃ params', paramsLoop parts searchParts i params = Ok params'.
Proof.
  induction 1 as [|p parts Hp _ IH]; intros i params Hlen; simpl; [eauto|].
  simpl in Hlen.
  destruct p as [|c p]; [done|]. cbn [byte0 mbind res_bind].
  destruct (Ascii.eqb c ":"); [|destruct (Ascii.eqb c "*")].
  - unfold index. destruct (searchParts !! i) as [v|] eqn:Hv.
    + cbn [mbind res_bind]. apply IH. lia.
    + apply lookup_ge_None in Hv. lia.
  - unfold sliceList. destruct (decide (i ≤ length searchParts)); [|lia].
    cbn [mbind res_bind].
    destruct (drop i searchParts) as [|q tl] eqn:Hdrop.
    + apply (f_equal length) in Hdrop. rewrite length_drop in Hdrop.
      simpl in Hdrop. lia.
    + rewrite joinParts_concat. simpl. eauto.
  - apply IH. lia.
Qed.

Lemma getRoute_no_fault r (method path : string) :
  reachable r → ∃ o, getRoute r method path = Ok o.
Proof.
  intros Hr. unfold getRoute.
  destruct (root r !! method) as [rt|] eqn:Hroot; [|eauto].
  destruct (search_no_fault rt (parsePattern path) 0) as [[n|] Hs]; [lia| |];
    rewrite Hs; cbn [mbind res_bind]; [|eauto].
  destruct (search_found rt (parsePattern path) 0 n) as (Hne & d & Hd & Hle);
    [lia|done|].
  pose proof (reachable_routerInv r Hr method rt Hroot) as Hinv.
  pose proof (allPatterns_atDepth _ _ _ _ Hd 0 Hinv) as Hn.
  apply allPatterns_unfold in Hn as [Hn _].
  destruct (Hn Hne) as [Hlen _].
  destruct (paramsLoop_no_fault (parsePattern path) (parsePattern (pattern n))
              (parsePattern_nonempty _) 0 ∅) as [params ->].
  { rewrite Hlen. simpl in *. lia. }
  simpl. eauto.
Qed.

(** In a router built by registrations, the pattern of a node that
    [getRoute] returns has its handler. *)
Lemma getRoute_hit_registered r (method path : string) (n : node)
    (params : gmap string string) :
  reachable r →
  getRoute r method path = Ok (Some (n, params)) →
  is_Some (handlers r !! handlerKey method (pattern n)).
Proof.
  intros Hr. unfold getRoute.
  destruct (root r !! method) as [rt|] eqn:Hroot; [|done].
  destruct (search rt (parsePattern path) 0) as [[m|]|] eqn:Hs;
    cbn [mbind res_bind]; [|done..].
  destruct (paramsLoop _ _ _ _) as [ps|]; cbn [mbind res_bind]; [|done].
  intros [= <- <-].
  destruct (search_found rt (parsePattern path) 0 m) as (Hne & d & Hd & _);
    [lia|done|].
  pose proof (reachable_routerInv r Hr method rt Hroot) as Hinv.
  pose proof (allPatterns_atDepth _ _ _ _ Hd 0 Hinv) as Hn.
  apply allPatterns_unfold in Hn as [Hn _].
  by destruct (Hn Hne) as [_ Hh].
Qed.

End RegistryProperties.

(** * The claims *)

(** ** Parsing *)

Lemma containsByte_split (c : ascii) (s : string) :
  containsByte c s = true →
  ∃ pre post, s = pre +:+ String c post ∧ containsByte c pre = false.
Proof.
  induction s as [|c' s IH]; simpl; [done|].
  destruct (Ascii.eqb_spec c' c) as [->|Hne]; simpl.
  - intros _. by exists "", s.
  - intros Hs. destruct (IH Hs) as (pre & post & -> & Hpre).
    exists (String c' pre), post. split; [done|]. simpl.
    rewrite Hpre. by destruct (Ascii.eqb_spec c' c).
Qed.

(** C2, counterexample: on [/a/*x/b] the parser does not drop [/b]; the
    last segment is [*x/b], not [*x]. *)
Lemma parsePattern_wildcard_not_truncated :
  parsePattern "/a/*x/b" = ["a"; "*x/b"]
  ∧ parsePattern "/a/*x/b" ≠ ["a"; "*x"].
Proof. split; [reflexivity|discriminate]. Qed.

Lemma parsePattern_at_wildcard (pre post : string) :
  containsByte "*" pre = false →
  parsePattern (pre +:+ String "*" post)
  = parsePattern pre ++ [String "*" post].
Proof.
  intros Hpre. rewrite !parsePattern_segmentsFrom.
  by apply segmentsFrom_wildcard.
Qed.

(** C2, amended: a pattern that contains [*] is cut at its first [*];
    the text before it gives segments as in any pattern, and the whole
    rest of the pattern from that [*] on, later [/] included, is the
    last segment: the rest is not read and none of it is dropped. *)
Theorem parsePattern_wildcard_takes_rest (pat : string) :
  containsByte "*" pat = true →
  ∃ pre post,
    pat = pre +:+ String "*" post
    ∧ containsByte "*" pre = false
    ∧ parsePattern pat = parsePattern pre ++ [String "*" post]
    ∧ last (parsePattern pat) = Some (String "*" post).
Proof.
  intros Hpat.
  destruct (containsByte_split "*" pat Hpat) as (pre & post & -> & Hpre).
  exists pre, post. split_and!; [done..| |].
  - by apply parsePattern_at_wildcard.
  - rewrite parsePattern_at_wildcard by done. apply last_snoc.
Qed.

Lemma parsePattern_wildcard_takes_rest_witness :
  ∃ pre post,
    "/a/*x/b" = pre +:+ String "*" post
    ∧ containsByte "*" pre = false
    ∧ parsePattern "/a/*x/b" = parsePattern pre ++ [String "*" post]
    ∧ last (parsePattern "/a/*x/b") = Some (String "*" post).
Proof. apply (parsePattern_wildcard_takes_rest "/a/*x/b"). reflexivity. Defined.

(** C8: for every pattern without wildcard, parsing it, joining the
    segments with [/] and parsing the joined text gives the segments of
    the pattern again; this holds of a pattern without segment as well,
    such as [/] or the empty one, whose join is the empty text.  Whatever
    [joinParts] returns on the segments is this join, so that it parses
    to the same segments, and [joinParts] returns on the segments of
    every pattern that has one. *)
Theorem parse_join_parse (P : string) :
  containsByte "*" P = false →
  parsePattern (String.concat "/" (parsePattern P)) = parsePattern P
  ∧ (∀ s, joinParts (parsePattern P) = Ok s →
          s = String.concat "/" (parsePattern P)
          ∧ parsePattern s = parsePattern P)
  ∧ (parsePattern P ≠ [] →
     joinParts (parsePattern P) = Ok (String.concat "/" (parsePattern P))).
Proof.
  intros Hwild.
  assert (Hplain : Forall plainSegment (parsePattern P)).
  { rewrite parsePattern_segmentsFrom. by apply segmentsFrom_plain. }
  assert (Hround :
    parsePattern (String.concat "/" (parsePattern P)) = parsePattern P).
  { by apply parsePattern_concat. }
  split_and!; [done| |].
  - intros s Hs. destruct (parsePattern P) as [|p ps] eqn:HP; [done|].
    rewrite joinParts_concat in Hs. injection Hs as <-. done.
  - intros Hne. destruct (parsePattern P) as [|p ps] eqn:HP; [done|].
    apply joinParts_concat.
Qed.

Lemma parse_join_parse_witness :
  parsePattern (String.concat "/" (parsePattern "//users//:id/"))
  = parsePattern "//users//:id/"
  ∧ joinParts (parsePattern "//users//:id/") = Ok "users/:id".
Proof.
  destruct (parse_join_parse "//users//:id/") as (H1 & _ & H3);
    [reflexivity|].
  split; [exact H1|]. apply H3. discriminate.
Defined.

(** ** Resolution of single routes *)

Section SingleRoutes.

Context {HandlerFunc : Type}.

(** C1, as the code has it: after [/p/:lang/doc] alone is registered,
    [/p/go/doc] does not resolve.  The node of [:lang] is wild, [search]
    stops at it, and it carries no route. *)
Theorem named_segment_before_static_misses (method : string)
    (H : HandlerFunc) :
  ∃ r, AddRoutes NewRouter method "/p/:lang/doc" H = Ok r
       ∧ getRoute r method "/p/go/doc" = Ok None.
Proof.
  destruct (AddRoutes_Ok NewRouter method "/p/:lang/doc" H)
    as (rt & Hrt & Hadd).
  eexists. split; [exact Hadd|].
  unfold NewRouter in Hrt. cbn [root] in Hrt.
  rewrite lookup_empty in Hrt. vm_compute in Hrt. injection Hrt as <-.
  unfold getRoute. cbn [root]. rewrite lookup_insert_eq.
  reflexivity.
Qed.

(** C4: after [/static/*filepath] is registered, [/static/css/app.css]
    resolves to it with [filepath] bound to [css/app.css]; the value is
    what [joinParts] makes of the segments from the wildcard on, which is
    their join with single [/] and nothing after the last. *)
Theorem wildcard_binds_joined_rest (method : string) (H : HandlerFunc) :
  ∃ r n params,
    AddRoutes NewRouter method "/static/*filepath" H = Ok r
    ∧ getRoute r method "/static/css/app.css" = Ok (Some (n, params))
    ∧ pattern n = "/static/*filepath"
    ∧ handlers r !! handlerKey method (pattern n) = Some H
    ∧ params = {["filepath" := "css/app.css"]}
    ∧ joinParts (drop 1 (parsePattern "/static/css/app.css"))
      = Ok "css/app.css"
    ∧ ∀ p ps, joinParts (p :: ps) = Ok (String.concat "/" (p :: ps)).
Proof.
  destruct (AddRoutes_Ok NewRouter method "/static/*filepath" H)
    as (rt & Hrt & Hadd).
  unfold NewRouter in Hrt. cbn [root] in Hrt.
  rewrite lookup_empty in Hrt. vm_compute in Hrt. injection Hrt as <-.
  eexists _, (Node "/static/*filepath" "*filepath" [] true), _.
  split; [exact Hadd|].
  split.
  { unfold getRoute. cbn [root]. rewrite lookup_insert_eq. reflexivity. }
  split; [reflexivity|].
  split; [cbn [handlers pattern]; by rewrite lookup_insert_eq|].
  split; [reflexivity|].
  split; [reflexivity|].
  apply joinParts_concat.
Qed.

End SingleRoutes.

(** ** Dispatch, registration and the middleware chain *)

Lemma wrapInt_small (z : Z) :
  (- 2 ^ 63 ≤ z < 2 ^ 63)%Z → wrapInt z = z.
Proof. intros Hz. unfold wrapInt. rewrite Z.mod_small; lia. Qed.

Lemma HasPrefix_spec (s pfx : string) :
  HasPrefix s pfx = true ↔ ∃ t, s = pfx +:+ t.
Proof.
  unfold HasPrefix. revert s.
  induction pfx as [|c pfx IH]; intros [|c' s]; simpl.
  - split; [intros _; by exists ""|done].
  - split; [intros _; by exists (String c' s)|done].
  - split; [done|]. by intros [t Ht].
  - destruct (ascii_dec c c') as [<-|Hne].
    + rewrite IH. split; intros [t Ht]; exists t.
      * by rewrite Ht.
      * rewrite string_app_cons in Ht. by injection Ht.
    + split; [done|]. intros [t Ht].
      rewrite string_app_cons in Ht. by injection Ht as ->.
Qed.

Section Dispatch.

Context {HandlerFunc ResponseWriter httpRequest : Type}.
Variable http_Error : ResponseWriter → string → Z → ResponseWriter.
Variable reqMethod : httpRequest → string.
Variable reqURLPath : httpRequest → string.
Variable call :
  HandlerFunc → Context HandlerFunc ResponseWriter httpRequest
  → res (Context HandlerFunc ResponseWriter httpRequest).

Implicit Types (r : router HandlerFunc) (h : HandlerFunc).
Implicit Types (ctx : Context HandlerFunc ResponseWriter httpRequest).
Implicit Types (cfg : handlerCfg HandlerFunc ResponseWriter httpRequest).
Implicit Types (e : Engine HandlerFunc).
Implicit Types (gs : list (RouterGroup HandlerFunc)).

Lemma assignMiddlewares_from gs (path : string) :
  ∀ acc : list HandlerFunc,
    foldl (λ mws group,
             if HasPrefix path (prefix group)
             then mws ++ middlewares group else mws) acc gs
    = acc ++ concat (middlewares <$>
                       List.filter (λ g, HasPrefix path (prefix g)) gs).
Proof.
  induction gs as [|g gs IH]; intros acc; simpl.
  { by rewrite app_nil_r. }
  rewrite IH. destruct (HasPrefix path (prefix g)); simpl; [|done].
  by rewrite app_assoc.
Qed.

(** C5: the middleware sequence of a request is the concatenation, over
    the groups in the order of [Engine.groups] (creation order, the root
    group first), of the middleware lists of the groups whose prefix is
    a textual prefix of the path.  With [/api], then its child [/v1],
    and the path [/api/v1/users]: the root's, then those of [/api], then
    those of [/api/v1], whatever the order of the [Use] calls. *)
Theorem middlewares_follow_group_order :
  (∀ gs path,
     assignMiddlewares gs path
     = concat (middlewares <$>
                 List.filter (λ g, HasPrefix path (prefix g)) gs))
  ∧ (∀ path pfx, HasPrefix path pfx = true ↔ ∃ t, path = pfx +:+ t)
  ∧ (∀ e g pfx e' g',
       Group e g pfx = Some (e', g') →
       ∃ grp, groups e !! g = Some grp
              ∧ g' = length (groups e)
              ∧ groups e'
                = groups e ++ [mkRouterGroup (prefix grp +:+ pfx) [] (Some g)])
  ∧ (∀ R A B : list HandlerFunc,
       ∃ e1 api e2 v1 e3 e4 e5,
         Group (New []) rootGroup "/api" = Some (e1, api)
         ∧ Group e1 api "/v1" = Some (e2, v1)
         ∧ Use e2 v1 B = Some e3
         ∧ Use e3 api A = Some e4
         ∧ Use e4 rootGroup R = Some e5
         ∧ prefix <$> groups e5 = [""; "/api"; "/api/v1"]
         ∧ middlewares <$> groups e5 = [R; A; B]
         ∧ assignMiddlewares (groups e5) "/api/v1/users" = R ++ A ++ B).
Proof.
  split_and!.
  - intros gs path. unfold assignMiddlewares.
    by rewrite assignMiddlewares_from.
  - intros path pfx. apply HasPrefix_spec.
  - intros e g pfx e' g'. unfold Group.
    destruct (groups e !! g) as [grp|]; simpl; [|done].
    intros [= <- <-]. by exists grp.
  - intros R A B. do 7 eexists.
    split_and!; try reflexivity.
    unfold assignMiddlewares. simpl. by rewrite <- app_assoc.
Qed.

(** C6: within the range of a cursor that started at [-1], [Next] adds
    one to the cursor; when the new cursor is an index of the middleware
    sequence it calls the middleware there on the same context, and
    otherwise, as always when the sequence is empty, it calls nothing. *)
Theorem Next_advances_and_calls ctx :
  (-1 ≤ current ctx < 2 ^ 63 - 1)%Z →
  let ctx' := setCurrent ctx (current ctx + 1) in
  current ctx' = (current ctx + 1)%Z
  ∧ (∀ h, middleware ctx !! Z.to_nat (current ctx + 1) = Some h →
          Next call ctx = call h ctx')
  ∧ ((Z.of_nat (length (middleware ctx)) ≤ current ctx + 1)%Z →
     Next call ctx = Ok ctx')
  ∧ (middleware ctx = [] → Next call ctx = Ok ctx').
Proof.
  intros Hcur ctx'. unfold Next.
  rewrite wrapInt_small by lia. fold ctx'.
  assert (Hmw : middleware ctx' = middleware ctx) by done.
  assert (Hc : current ctx' = (current ctx + 1)%Z) by done.
  rewrite Hmw, Hc.
  split_and!; [done| | |].
  - intros h Hh. pose proof (lookup_lt_Some _ _ _ Hh) as Hlt.
    destruct (decide (current ctx + 1 < Z.of_nat (length (middleware ctx)))%Z);
      [|lia].
    unfold indexZ, index.
    destruct (decide (current ctx + 1 < 0)%Z); [lia|]. by rewrite Hh.
  - intros Hge.
    destruct (decide (current ctx + 1 < Z.of_nat (length (middleware ctx)))%Z);
      [lia|done].
  - intros ->. simpl. case_decide; [lia|done].
Qed.

(** C3: when the method and path of the request resolve to a route,
    [ServeHTTP] calls the handler of that route, and nothing else, on the
    context as [newContext] made it, cursor at [-1], with the assembled
    middleware sequence and the parameters of the route; [handle] changes
    [Params] only. *)
Theorem dispatch_calls_handler_directly e (w : ResponseWriter)
    (req : httpRequest) (n : node) (params : gmap string string) h :
  getRoute (engineRouter e) (reqMethod req) (reqURLPath req)
  = Ok (Some (n, params)) →
  handlers (engineRouter e) !! handlerKey (reqMethod req) (pattern n)
  = Some h →
  ServeHTTP http_Error reqMethod reqURLPath call e w req
  = call h (mkContext req w params (reqMethod req) (reqURLPath req) 0 (-1)
              (engineConfig e)
              (assignMiddlewares (groups e) (reqURLPath req)))
  ∧ ∀ cfg n' params' h',
      getRoute (engineRouter e) (HTTPMethod (Ctx cfg)) (RoutePath (Ctx cfg))
      = Ok (Some (n', params')) →
      handlers (engineRouter e)
        !! handlerKey (HTTPMethod (Ctx cfg)) (pattern n') = Some h' →
      handle http_Error call (engineRouter e) cfg
      = call h' (setParams (Ctx cfg) params').
Proof.
  intros Hroute Hh.
  assert (Hhandle : ∀ cfg n' params' h',
    getRoute (engineRouter e) (HTTPMethod (Ctx cfg)) (RoutePath (Ctx cfg))
    = Ok (Some (n', params')) →
    handlers (engineRouter e)
      !! handlerKey (HTTPMethod (Ctx cfg)) (pattern n') = Some h' →
    handle http_Error call (engineRouter e) cfg
    = call h' (setParams (Ctx cfg) params')).
  { intros cfg n' params' h' Hr Hh'. unfold handle. rewrite Hr.
    cbn [mbind res_bind]. unfold handlerKey in Hh'.
    cbn [setParams HTTPMethod]. by rewrite Hh'. }
  split; [|exact Hhandle].
  unfold ServeHTTP. by erewrite Hhandle.
Qed.

(** C7: a method that has no tree, and a path that no node matches, are
    misses that [getRoute] returns, not panics; on a miss [handle] calls
    [http.Error] with the text [NOT FOUND] and status 404 and calls no
    handler; on a hit it does not write to the response itself; and in a
    router built by registrations [handle] does one or the other. *)
Theorem unmatched_request_is_answered_404 r cfg :
  (∀ method path, root r !! method = None → getRoute r method path = Ok None)
  ∧ (∀ method path rt,
       root r !! method = Some rt →
       ∃ o, search rt (parsePattern path) 0 = Ok o
            ∧ (o = None → getRoute r method path = Ok None))
  ∧ (getRoute r (HTTPMethod (Ctx cfg)) (RoutePath (Ctx cfg)) = Ok None →
     handle http_Error call r cfg
     = Ok (setResponseWriter (Ctx cfg)
             (http_Error (ResponseWriter_ (Ctx cfg)) "NOT FOUND" 404)))
  ∧ (∀ n params,
       getRoute r (HTTPMethod (Ctx cfg)) (RoutePath (Ctx cfg))
       = Ok (Some (n, params)) →
       handle http_Error call r cfg
       = match handlers r !! handlerKey (HTTPMethod (Ctx cfg)) (pattern n) with
         | Some h => call h (setParams (Ctx cfg) params)
         | None => Fault
         end)
  ∧ (∀ e w req,
       engineRouter e = r →
       getRoute r (reqMethod req) (reqURLPath req) = Ok None →
       ∃ ctx, ServeHTTP http_Error reqMethod reqURLPath call e w req = Ok ctx
              ∧ ResponseWriter_ ctx = http_Error w "NOT FOUND" 404)
  ∧ (reachable r →
     handle http_Error call r cfg
     = Ok (setResponseWriter (Ctx cfg)
             (http_Error (ResponseWriter_ (Ctx cfg)) "NOT FOUND" 404))
     ∨ ∃ n params h,
         getRoute r (HTTPMethod (Ctx cfg)) (RoutePath (Ctx cfg))
         = Ok (Some (n, params))
         ∧ handlers r !! handlerKey (HTTPMethod (Ctx cfg)) (pattern n) = Some h
         ∧ handle http_Error call r cfg = call h (setParams (Ctx cfg) params)).
Proof.
  split_and!.
  6: {
    intros Hr.
    destruct (getRoute_no_fault r (HTTPMethod (Ctx cfg)) (RoutePath (Ctx cfg)) Hr)
      as [[[n params]|] Hroute].
    - right.
      destruct (getRoute_hit_registered r _ _ n params Hr Hroute) as [h Hh].
      exists n, params, h. split_and!; [done..|].
      unfold handle. rewrite Hroute. cbn [mbind res_bind].
      unfold handlerKey in Hh. cbn [setParams HTTPMethod]. by rewrite Hh.
    - left. unfold handle. by rewrite Hroute. }
  - intros method path Hroot. unfold getRoute. by rewrite Hroot.
  - intros method path rt Hroot.
    destruct (search_no_fault rt (parsePattern path) 0) as [o Ho]; [lia|].
    exists o. split; [done|]. intros ->.
    unfold getRoute. by rewrite Hroot, Ho.
  - intros Hmiss. unfold handle. by rewrite Hmiss.
  - intros n params Hhit. unfold handle. by rewrite Hhit.
  - intros e w req <- Hmiss. eexists. split.
    + unfold ServeHTTP, handle. cbn [Ctx]. 
      change (HTTPMethod (setMiddleware (newContext reqMethod reqURLPath w req _) _))
        with (reqMethod req).
      change (RoutePath (setMiddleware (newContext reqMethod reqURLPath w req _) _))
        with (reqURLPath req).
      rewrite Hmiss. reflexivity.
    + reflexivity.
Qed.

End Dispatch.

(** ** Safety of resolution *)

(** C10: parsing yields non-empty segments only, so that registration
    reads the first byte of each safely; and in a router built by
    registrations a resolution does not panic: a node that [search]
    returns lies at the depth that is the number of segments of its
    pattern, at most the number of segments of the path, so that the
    extraction reads [searchParts[i]] and joins [searchParts[i:]] within
    bounds and on non-empty data. *)
Theorem resolution_stays_in_bounds {HandlerFunc : Type}
    (r : router HandlerFunc) (method path : string) :
  reachable r →
  Forall (λ p, p ≠ "") (parsePattern path)
  ∧ (∀ pat h, ∃ r', AddRoutes r method pat h = Ok r')
  ∧ (∃ o, getRoute r method path = Ok o)
  ∧ (∀ rt n,
       root r !! method = Some rt →
       search rt (parsePattern path) 0 = Ok (Some n) →
       ∃ d, atDepth rt d n
            ∧ length (parsePattern (pattern n)) = d
            ∧ d ≤ length (parsePattern path)
            ∧ Forall (λ p, p ≠ "") (parsePattern (pattern n))
            ∧ ∀ i, i < d →
                ∃ v tl, parsePattern path !! i = Some v
                        ∧ drop i (parsePattern path) = v :: tl
                        ∧ joinParts (drop i (parsePattern path))
                          = Ok (String.concat "/" (v :: tl))).
Proof.
  intros Hr. split_and!.
  - apply parsePattern_nonempty.
  - intros pat h. destruct (AddRoutes_Ok r method pat h) as (rt & _ & ->).
    eauto.
  - by apply getRoute_no_fault.
  - intros rt n Hroot Hs.
    destruct (search_found rt (parsePattern path) 0 n) as (Hne & d & Hd & Hle);
      [lia|done|].
    pose proof (reachable_routerInv r Hr method rt Hroot) as Hinv.
    pose proof (allPatterns_atDepth _ _ _ _ Hd 0 Hinv) as Hn.
    apply allPatterns_unfold in Hn as [Hn _].
    destruct (Hn Hne) as [Hlen _]. simpl in Hlen, Hle.
    exists d. split_and!; [done..|apply parsePattern_nonempty|].
    intros i Hi.
    destruct (parsePattern path !! i) as [v|] eqn:Hv.
    2: { apply lookup_ge_None in Hv. lia. }
    exists v, (drop (S i) (parsePattern path)).
    rewrite (drop_S _ _ _ Hv). split_and!; [done..|].
    apply joinParts_concat.
Qed.

Lemma helloRouter_reachable : reachable helloRouter.
Proof.
  eapply (reachable_add NewRouter "GET" "/hello/:name" 7);
    [constructor|vm_compute; reflexivity].
Defined.

Lemma resolution_stays_in_bounds_witness :
  reachable helloRouter ∧ ∃ o, getRoute helloRouter "GET" "/hello/bob" = Ok o.
Proof.
  split; [exact helloRouter_reachable|].
  destruct (resolution_stays_in_bounds helloRouter "GET" "/hello/bob"
              helloRouter_reachable) as (_ & _ & H & _).
  exact H.
Defined.

(** ** The claims on the small instance *)

Lemma Next_advances_and_calls_witness :
  Next quietCall (mkContext ("GET", "/") [] ∅ "GET" "/" 0 (-1)
                    (mkConfig [] [] false) [5; 6])
  = quietCall 5 (mkContext ("GET", "/") [] ∅ "GET" "/" 0 0
                   (mkConfig [] [] false) [5; 6]).
Proof.
  destruct (Next_advances_and_calls quietCall
              (mkContext ("GET", "/") [] ∅ "GET" "/" 0 (-1)
                 (mkConfig [] [] false) [5; 6])) as (_ & H & _).
  - simpl. lia.
  - apply H. reflexivity.
Defined.

Lemma dispatch_calls_handler_directly_witness :
  ServeHTTP logError fst snd quietCall helloEngine [] ("GET", "/hello/bob")
  = Ok (mkContext ("GET", "/hello/bob") [] {["name" := "bob"]}
          "GET" "/hello/bob" 0 (-1) (mkConfig [] [] false) [0]).
Proof.
  destruct (dispatch_calls_handler_directly logError fst snd quietCall
              helloEngine [] ("GET", "/hello/bob")
              (Node "/hello/:name" ":name" [] true) {["name" := "bob"]} 7)
    as [H _].
  - vm_compute. reflexivity.
  - vm_compute. reflexivity.
  - exact H.
Defined.

(** * Further properties of the code *)

(** ** parsePattern and joinParts *)

Lemma segmentsFrom_slash (s t : string) :
  ∀ cur, containsByte "*" s = false →
    segmentsFrom cur (s +:+ String "/" t)
    = segmentsFrom cur s ++ segmentsFrom "" t.
Proof.
  induction s as [|c s IH]; intros cur Hs; string_app_simpl.
  - done.
  - simpl in Hs. apply orb_false_elim in Hs as [Hc Hs].
    cbn [segmentsFrom]. rewrite Hc.
    destruct (Ascii.eqb c "/").
    + by rewrite IH, app_assoc.
    + by rewrite IH.
Qed.

(** A [/] cuts the pattern in two patterns that are parsed each on its
    own, so long as no [*] comes before it: leading, trailing and
    repeated [/] add no segment. *)
Theorem parsePattern_splits_at_slash (s t : string) :
  containsByte "*" s = false →
  parsePattern (s +:+ String "/" t) = parsePattern s ++ parsePattern t
  ∧ parsePattern (String "/" s) = parsePattern s
  ∧ parsePattern (s +:+ "/") = parsePattern s
  ∧ parsePattern (s +:+ String "/" (String "/" t))
    = parsePattern (s +:+ String "/" t).
Proof.
  intros Hs. rewrite !parsePattern_segmentsFrom.
  rewrite !segmentsFrom_slash by done.
  split_and!; [done|done|by rewrite app_nil_r|done].
Qed.

Lemma parsePattern_splits_at_slash_witness :
  parsePattern ("/api//v1" +:+ String "/" "users/") 
  = parsePattern "/api//v1" ++ parsePattern "users/".
Proof.
  apply (parsePattern_splits_at_slash "/api//v1" "users/"). reflexivity.
Defined.

(** Of the segments of a pattern only the last can hold a [/] or a [*],
    and then it begins with [*]; the others are not empty and hold
    neither. *)
Theorem parsePattern_segment_shape (s : string) (segs : list string)
    (x : string) :
  parsePattern s = segs ++ [x] →
  Forall plainSegment segs
  ∧ (plainSegment x ∨ ∃ post, x = String "*" post).
Proof.
  intros Hs.
  destruct (containsByte "*" s) eqn:Hw.
  - destruct (containsByte_split "*" s Hw) as (pre & post & -> & Hpre).
    rewrite parsePattern_at_wildcard in Hs by done.
    apply app_inj_tail in Hs as [<- <-]. split; [|eauto].
    rewrite parsePattern_segmentsFrom. by apply segmentsFrom_plain.
  - assert (Hplain : Forall plainSegment (parsePattern s)).
    { rewrite parsePattern_segmentsFrom. by apply segmentsFrom_plain. }
    rewrite Hs in Hplain. apply Forall_app in Hplain as [H1 H2].
    split; [done|]. left. by inversion H2.
Qed.

Lemma parsePattern_segment_shape_witness :
  Forall plainSegment ["static"]
  ∧ (plainSegment "*filepath/x" ∨ ∃ post, "*filepath/x" = String "*" post).
Proof.
  apply (parsePattern_segment_shape "/static/*filepath/x"). reflexivity.
Defined.

(** Segments that are not empty and hold no [/] and no [*], joined by
    [joinParts], parse back to themselves. *)
Theorem joinParts_then_parsePattern (seg : string) (segs : list string) :
  Forall plainSegment (seg :: segs) →
  ∃ s, joinParts (seg :: segs) = Ok s ∧ parsePattern s = seg :: segs.
Proof.
  intros Hplain. exists (String.concat "/" (seg :: segs)).
  split; [apply joinParts_concat|by apply parsePattern_concat].
Qed.

Lemma joinParts_then_parsePattern_witness :
  ∃ s, joinParts ["css"; "app.css"] = Ok s
       ∧ parsePattern s = ["css"; "app.css"].
Proof.
  apply joinParts_then_parsePattern.
  repeat constructor; discriminate.
Defined.

Lemma concat_slash_length (p : string) (parts : list string) :
  S (String.length (String.concat "/" (p :: parts))) = joinLength (p :: parts).
Proof.
  revert p. induction parts as [|q parts IH]; intros p;
    rewrite joinLength_cons.
  - change (String.concat "/" [p]) with p.
    change (joinLength []) with 0. lia.
  - change (String.concat "/" (p :: q :: parts))
      with (p +:+ String "/" (String.concat "/" (q :: parts))).
    rewrite string_length_app. cbn [String.length]. rewrite <- IH. lia.
Qed.

(** [joinParts] panics on the empty list and on no other; what it returns
    has one byte less than the length the first loop counted. *)
Theorem joinParts_faults_iff_empty (parts : list string) :
  (joinParts parts = Fault ↔ parts = [])
  ∧ ∀ s, joinParts parts = Ok s →
         S (String.length s) = joinLength parts.
Proof.
  destruct parts as [|p parts].
  - split; [done|]. by intros s.
  - rewrite joinParts_concat. split; [done|].
    intros s [= <-]. apply concat_slash_length.
Qed.

(** ** travel, and what insertion stores *)

Lemma allNodes_unfold (R : node → Prop) (n : node) :
  allNodes R n ↔ R n ∧ Forall (allNodes R) (children n).
Proof.
  destruct n as [pat p cs w]. simpl.
  assert (Hcs : (fix all (cs : list node) : Prop :=
                   match cs with
                   | [] => True
                   | c :: cs' => allNodes R c ∧ all cs'
                   end) cs ↔ Forall (allNodes R) cs).
  { induction cs as [|c cs IH]; [by split|].
    rewrite Forall_cons. by rewrite IH. }
  by rewrite Hcs.
Qed.

Lemma allNodes_atDepth (R : node → Prop) (n m : node) (d : nat) :
  atDepth n d m → allNodes R n → allNodes R m.
Proof.
  induction 1 as [n|n c d m Hc _ IH]; intros Hn; [done|].
  apply allNodes_unfold in Hn as [_ Hcs].
  rewrite Forall_forall in Hcs. by apply IH, Hcs.
Qed.

Lemma allPatterns_of_atDepth (P : nat → string → Prop) (n : node) :
  ∀ h, (∀ d m, atDepth n d m → P (h + d) (pattern m)) → allPatterns P h n.
Proof.
  induction n as [pat p cs w IH] using node_ind'; intros h Hall.
  apply allPatterns_unfold. split.
  - specialize (Hall 0 _ (atDepth_here _)). by rewrite Nat.add_0_r in Hall.
  - cbn [children]. rewrite Forall_forall in IH.
    apply Forall_forall. intros c Hc. apply IH; [done|].
    intros d m Hm. replace (S h + d) with (h + S d) by lia.
    apply Hall. by eapply atDepth_child.
Qed.

Lemma travel_unfold (n : node) :
  ∀ l, travel n l
       = l ++ (if String.eqb (pattern n) "" then [] else [n])
           ++ mjoin ((λ c, travel c []) <$> children n).
Proof.
  induction n as [pat p cs w IH] using node_ind'; intros l.
  cbn [travel pattern children].
  assert (Hfold : ∀ acc, foldl (λ l child, travel child l) acc cs
                         = acc ++ mjoin ((λ c, travel c []) <$> cs)).
  { clear l. induction IH as [|c cs Hc _ IHcs]; intros acc; simpl.
    - by rewrite app_nil_r.
    - rewrite IHcs, (Hc acc), (Hc []). simpl. by rewrite <- !app_assoc. }
  rewrite Hfold. destruct (String.eqb pat ""); simpl; [done|].
  by rewrite <- app_assoc.
Qed.

Lemma travel_app (n : node) (l : list node) :
  travel n l = l ++ travel n [].
Proof. by rewrite (travel_unfold n l), (travel_unfold n []). Qed.

Lemma travel_elem (n m : node) :
  m ∈ travel n [] ↔ pattern m ≠ "" ∧ ∃ d, atDepth n d m.
Proof.
  revert m. induction n as [pat p cs w IH] using node_ind'; intros m.
  rewrite travel_unfold. cbn [pattern children app].
  rewrite elem_of_app. rewrite Forall_forall in IH. split.
  - intros [Hown|Hsub].
    + destruct (String.eqb_spec pat "") as [|Hne]; [by apply elem_of_nil in Hown|].
      apply list_elem_of_singleton in Hown as ->.
      split; [done|]. exists 0. constructor.
    + apply list_elem_of_join in Hsub as (l & Hm & Hl).
      apply list_elem_of_fmap in Hl as (c & -> & Hc).
      apply IH in Hm as (Hne & d & Hd); [|done].
      split; [done|]. exists (S d). by eapply atDepth_child.
  - intros (Hne & d & Hd). inversion Hd as [|? c d' ? Hc Hd']; subst.
    + left. cbn [pattern] in Hne.
      destruct (String.eqb_spec pat ""); [done|]. by apply list_elem_of_singleton.
    + right. apply list_elem_of_join.
      exists (travel c []). split.
      * apply IH; [done|]. eauto.
      * apply list_elem_of_fmap. by exists c.
Qed.

(** [travel] adds to the list it is given, behind what it holds, the
    nodes of the tree that carry a pattern, and no other node. *)
Theorem travel_collects_routes (n : node) (l : list node) :
  travel n l = l ++ travel n []
  ∧ ∀ m, m ∈ travel n l ↔ m ∈ l ∨ (pattern m ≠ "" ∧ ∃ d, atDepth n d m).
Proof.
  split; [apply travel_app|].
  intros m. rewrite travel_app, elem_of_app. by rewrite travel_elem.
Qed.

(** A node that [search] returns is one that [travel] lists. *)
Theorem search_result_in_travel (n : node) (parts : list string)
    (height : nat) (m : node) (l : list node) :
  height ≤ length parts →
  search n parts height = Ok (Some m) →
  m ∈ travel n l.
Proof.
  intros Hh Hs. rewrite travel_app, elem_of_app. right.
  apply travel_elem.
  destruct (search_found n parts height m Hh Hs) as (Hne & d & Hd & _).
  eauto.
Qed.

Lemma search_result_in_travel_witness :
  Node "/a" "a" [] false
  ∈ travel (Node "" "" [Node "/a" "a" [] false] false) [].
Proof.
  apply (search_result_in_travel _ ["a"] 0); [simpl; lia|reflexivity].
Defined.

Lemma insertParts_terminal (pat : string) (rest : list string) :
  ∀ n n', insertParts n pat rest = Ok n' →
          ∃ m, atDepth n' (length rest) m ∧ pattern m = pat.
Proof.
  induction rest as [|p rest IH]; intros n n'; simpl.
  { intros [= <-]. eexists. split; [constructor|done]. }
  unfold matchChildren.
  destruct (firstMatch (children n) p) as [[idx child]|] eqn:Hm.
  - apply firstMatch_Some in Hm as (Hidx & _ & _).
    destruct (insertParts child pat rest) as [child'|] eqn:Hc; simpl; [|done].
    intros [= <-]. destruct (IH _ _ Hc) as (m & Hd & Hpat).
    exists m. split; [|done]. eapply atDepth_child; [|done].
    cbn [children setChildren]. eapply list_elem_of_lookup_2.
    apply list_lookup_insert_eq. by eapply lookup_lt_Some.
  - destruct (newChild p) as [child|]; simpl; [|done].
    destruct (insertParts child pat rest) as [child'|] eqn:Hc; simpl; [|done].
    intros [= <-]. destruct (IH _ _ Hc) as (m & Hd & Hpat).
    exists m. split; [|done]. eapply atDepth_child; [|done].
    cbn [children setChildren]. apply elem_of_app. right. by left.
Qed.

(** After [insert] the pattern is stored on a node as deep as the pattern
    has segments, and every pattern the tree then holds is this one or
    one it held before: an insertion may replace a stored pattern, it
    adds no other. *)
Theorem insert_stores_pattern (n : node) (pat : string)
    (parts : list string) (n' : node) :
  insert n pat parts 0 = Ok n' →
  (∃ m, atDepth n' (length parts) m ∧ pattern m = pat)
  ∧ ∀ m', m' ∈ travel n' [] →
          pattern m' = pat ∨ ∃ m0, m0 ∈ travel n [] ∧ pattern m0 = pattern m'.
Proof.
  rewrite insert_from_root. intros Hins.
  split; [by eapply insertParts_terminal|].
  set (P := λ (_ : nat) (p : string),
         p = "" ∨ p = pat ∨ ∃ m0, m0 ∈ travel n [] ∧ pattern m0 = p).
  assert (Hn : allPatterns P 0 n).
  { apply allPatterns_of_atDepth. intros d m Hd. unfold P.
    destruct (String.eqb_spec (pattern m) "") as [|Hne]; [by left|].
    right; right. exists m. split; [|done]. apply travel_elem. eauto. }
  assert (Hn' : allPatterns P 0 n').
  { eapply (insertParts_allPatterns P pat parts); [| |exact Hn|exact Hins].
    - intros d. by left.
    - right. by left. }
  intros m' Hm'. apply travel_elem in Hm' as (Hne & d & Hd).
  pose proof (allPatterns_atDepth _ _ _ _ Hd 0 Hn') as Hm.
  apply allPatterns_unfold in Hm as [[?|[?|?]] _]; [done|by left|by right].
Qed.

Lemma insert_stores_pattern_witness :
  (∃ m, atDepth (Node "" "" [Node "/a" "a" [] false] false) 1 m
        ∧ pattern m = "/a")
  ∧ ∀ m', m' ∈ travel (Node "" "" [Node "/a" "a" [] false] false) [] →
          pattern m' = "/a"
          ∨ ∃ m0, m0 ∈ travel emptyNode [] ∧ pattern m0 = pattern m'.
Proof. apply (insert_stores_pattern emptyNode "/a" ["a"]). reflexivity. Defined.

(** ** The shape of the trees *)

Lemma newChild_label (p : string) (child : node) :
  newChild p = Ok child → label child = (p, startsWild p).
Proof. destruct p as [|c p]; [done|]. by intros [= <-]. Qed.

Lemma insertParts_label (pat : string) (rest : list string) (n n' : node) :
  insertParts n pat rest = Ok n' → label n' = label n.
Proof.
  intros H. destruct (insertParts_shape _ _ _ _ H) as [Hp Hw].
  unfold label. by rewrite Hp, Hw.
Qed.

Lemma siblingsOk_nil : siblingsOk [].
Proof. split_and!; [constructor|constructor|]. by intros i p. Qed.

Lemma siblingsOk_snoc (cs : list node) (p : string) :
  p ≠ "" →
  Forall (λ c, childMatches c p = false) cs →
  siblingsOk (label <$> cs) →
  siblingsOk ((label <$> cs) ++ [(p, startsWild p)]).
Proof.
  intros Hp Hnone (Hdup & Hlab & Hlast). rewrite Forall_forall in Hnone.
  split_and!.
  - rewrite fmap_app. apply NoDup_app. split_and!; [done| |by apply NoDup_singleton].
    intros q Hq Hq'. simpl in Hq'. apply list_elem_of_singleton in Hq' as ->.
    apply list_elem_of_fmap in Hq as ([q w] & -> & Hq).
    apply list_elem_of_fmap in Hq as (c & Hc & Hin).
    specialize (Hnone c Hin). unfold childMatches in Hnone.
    apply orb_false_elim in Hnone as [Hne _].
    injection Hc as -> _. simpl in Hne. by rewrite String.eqb_refl in Hne.
  - apply Forall_app. split; [done|]. by repeat constructor.
  - intros i q Hi. rewrite length_app. simpl.
    destruct (decide (i < length (label <$> cs))) as [Hlt|Hge].
    + rewrite lookup_app_l in Hi by done.
      apply list_lookup_fmap_Some in Hi as (c & Hc & Hin).
      apply list_elem_of_lookup_2 in Hin. specialize (Hnone c Hin).
      unfold childMatches in Hnone. apply orb_false_elim in Hnone as [_ Hw].
      injection Hc as _ Hc. congruence.
    + apply lookup_lt_Some in Hi as Hlen. rewrite length_app in Hlen.
      simpl in Hlen. lia.
Qed.

Lemma insertParts_wellShaped (pat : string) (rest : list string) :
  ∀ n n', wellShaped n → insertParts n pat rest = Ok n' → wellShaped n'.
Proof.
  induction rest as [|p rest IH]; intros n n' Hn; simpl.
  { intros [= <-]. apply allNodes_unfold in Hn as [Hroot Hcs].
    apply allNodes_unfold. by destruct n. }
  apply allNodes_unfold in Hn as [Hroot Hcs].
  unfold matchChildren.
  destruct (firstMatch (children n) p) as [[idx child]|] eqn:Hm.
  - apply firstMatch_Some in Hm as (Hidx & _ & _).
    destruct (insertParts child pat rest) as [child'|] eqn:Hc; simpl; [|done].
    intros [= <-]. apply allNodes_unfold. destruct n as [pt q cs w].
    cbn [children setChildren] in *. split.
    + rewrite list_fmap_insert, (insertParts_label _ _ _ _ Hc).
      rewrite list_insert_id; [done|]. by rewrite list_lookup_fmap, Hidx.
    + apply Forall_insert; [done|]. eapply IH; [|done].
      rewrite Forall_forall in Hcs. apply Hcs.
      by eapply list_elem_of_lookup_2.
  - apply firstMatch_None in Hm.
    destruct (newChild p) as [child|] eqn:Hnew; simpl; [|done].
    pose proof (newChild_label _ _ Hnew) as Hlabel.
    apply newChild_inv in Hnew as (Hp & _ & _ & Hcc).
    destruct (insertParts child pat rest) as [child'|] eqn:Hc; simpl; [|done].
    intros [= <-]. apply allNodes_unfold. destruct n as [pt q cs w].
    cbn [children setChildren] in *. split.
    + rewrite fmap_app. simpl.
      rewrite (insertParts_label _ _ _ _ Hc), Hlabel.
      by apply siblingsOk_snoc.
    + apply Forall_app. split; [done|]. constructor; [|done].
      eapply IH; [|done]. apply allNodes_unfold. rewrite Hcc. simpl.
      split; [apply siblingsOk_nil|done].
Qed.

Lemma reachable_wellShaped {HandlerFunc : Type} (r : router HandlerFunc) :
  reachable r → ∀ method rt, root r !! method = Some rt → wellShaped rt.
Proof.
  induction 1 as [|r method pat h r' _ IH Hadd]; intros method' rt0.
  { unfold NewRouter. simpl. by rewrite lookup_empty. }
  apply AddRoutes_inv in Hadd as (rt' & Hrt & Hroot & _).
  rewrite Hroot, lookup_insert. case_decide as Hm; [|by apply IH].
  intros [= <-]. eapply insertParts_wellShaped; [|exact Hrt].
  destruct (root r !! method) as [rt|] eqn:Hold; simpl; [by eapply IH|].
  apply allNodes_unfold. split; [apply siblingsOk_nil|done].
Qed.

(** In the trees of a router built by registrations, the children of a
    node have segments that are not empty and differ from each other,
    they are wild when and only when their segment begins with [:] or
    [*], and a wild child is the last child: once a node has a wild
    child, no child is added to it. *)
Theorem children_keep_their_shape {HandlerFunc : Type}
    (r : router HandlerFunc) (method : string) (rt : node) (d : nat)
    (n : node) :
  reachable r →
  root r !! method = Some rt →
  atDepth rt d n →
  NoDup (part <$> children n)
  ∧ (∀ c, c ∈ children n → part c ≠ "" ∧ isWild c = startsWild (part c))
  ∧ (∀ i c, children n !! i = Some c → isWild c = true →
            S i = length (children n)).
Proof.
  intros Hr Hroot Hd.
  pose proof (reachable_wellShaped r Hr method rt Hroot) as Hrt.
  pose proof (allNodes_atDepth _ _ _ _ Hd Hrt) as Hn.
  apply allNodes_unfold in Hn as [(Hdup & Hlab & Hlast) _].
  split_and!.
  - by rewrite <- list_fmap_compose in Hdup.
  - intros c Hc. rewrite Forall_forall in Hlab.
    apply (Hlab (label c)). by apply list_elem_of_fmap_2.
  - intros i c Hi Hw. rewrite length_fmap in Hlast. apply (Hlast i (part c)).
    rewrite list_lookup_fmap, Hi. simpl. unfold label. by rewrite Hw.
Qed.

Lemma children_keep_their_shape_witness :
  NoDup (part <$> children (Node "" "hello"
                              [Node "/hello/:name" ":name" [] true] false))
  ∧ (∀ c, c ∈ children (Node "" "hello"
                          [Node "/hello/:name" ":name" [] true] false) →
          part c ≠ "" ∧ isWild c = startsWild (part c))
  ∧ (∀ i c, children (Node "" "hello"
                        [Node "/hello/:name" ":name" [] true] false) !! i
            = Some c → isWild c = true →
            S i = length (children (Node "" "hello"
                              [Node "/hello/:name" ":name" [] true] false))).
Proof.
  apply (children_keep_their_shape helloRouter "GET"
           (Node "" "" [Node "" "hello"
                          [Node "/hello/:name" ":name" [] true] false] false)
           1 (Node "" "hello" [Node "/hello/:name" ":name" [] true] false)
           helloRouter_reachable).
  - reflexivity.
  - eapply atDepth_child; [|constructor]. simpl. left.
Defined.

(** ** What a resolution says of the path *)

Lemma search_matched (n : node) :
  ∀ (parts : list string) (height : nat) (m : node),
    search n parts height = Ok (Some m) → matched parts height n m.
Proof.
  induction n as [pat p cs w IH] using node_ind'; intros parts height m.
  rewrite search_unfold. cbn [pattern isWild children].
  destruct (bool_decide (length parts = height) || w) eqn:Hend.
  { destruct (String.eqb_spec pat "") as [|Hpat]; [done|].
    intros [= <-]. apply matched_here; [|done].
    apply orb_prop in Hend as [Hlen|Hw]; [left|by right].
    by apply bool_decide_eq_true in Hlen. }
  apply orb_false_elim in Hend as [Hlen Hw].
  apply bool_decide_eq_false in Hlen.
  destruct (parts !! height) as [q|] eqn:Hq; [|done].
  assert (Hsub : ∀ c, c ∈ cs → c ∈ children (Node pat p cs w)) by done.
  assert (Hnw : isWild (Node pat p cs w) = false) by done.
  revert Hsub Hnw. generalize (Node pat p cs w) as n. intros n.
  induction IH as [|c cs Hc _ IHcs]; simpl; [done|]; intros Hsub Hnw Hres.
  assert (Hrest : ∀ c', c' ∈ cs → c' ∈ children n).
  { intros c' Hc'. apply Hsub. by right. }
  destruct (childMatches c q) eqn:Hcq; [|by apply IHcs].
  destruct (search c parts (S height)) as [[m'|]|] eqn:Hs; simpl in Hres;
    [|by apply IHcs|done].
  injection Hres as <-.
  eapply matched_below; [done..| |done|by apply Hc]. apply Hsub. by left.
Qed.

Lemma allTrails_unfold (P : list (string * bool) → string → Prop)
    (trail : list (string * bool)) (n : node) :
  allTrails P trail n
  ↔ P trail (pattern n)
    ∧ Forall (λ c, allTrails P (trail ++ [label c]) c) (children n).
Proof.
  destruct n as [pat p cs w]. simpl.
  assert (Hcs : (fix all (cs : list node) : Prop :=
                   match cs with
                   | [] => True
                   | c :: cs' => allTrails P (trail ++ [label c]) c ∧ all cs'
                   end) cs
                ↔ Forall (λ c, allTrails P (trail ++ [label c]) c) cs).
  { induction cs as [|c cs IH]; [by split|].
    rewrite Forall_cons. by rewrite IH. }
  by rewrite Hcs.
Qed.

Lemma childMatches_placedOn (c : node) (p : string) :
  childMatches c p = true → placedOn p (label c).
Proof.
  unfold childMatches, placedOn, label. simpl.
  intros [Heq|Hw]%orb_prop; [left|by right].
  by apply String.eqb_eq in Heq.
Qed.

Lemma insertParts_allTrails (P : list (string * bool) → string → Prop)
    (pat : string) (rest : list string) :
  (∀ trail, P trail "") →
  ∀ (trail : list (string * bool)) (n n' : node),
    (∀ ext, Forall2 placedOn rest ext → P (trail ++ ext) pat) →
    allTrails P trail n →
    insertParts n pat rest = Ok n' →
    allTrails P trail n'.
Proof.
  intros Hempty.
  induction rest as [|p rest IH]; intros trail n n' Hpat Hn; simpl.
  { intros [= <-]. apply allTrails_unfold in Hn as [_ Hcs].
    apply allTrails_unfold. destruct n as [pt q cs w].
    cbn [pattern children setPattern] in *. split; [|done].
    specialize (Hpat [] ltac:(constructor)). by rewrite app_nil_r in Hpat. }
  apply allTrails_unfold in Hn as [Hroot Hcs].
  unfold matchChildren.
  destruct (firstMatch (children n) p) as [[idx child]|] eqn:Hm.
  - apply firstMatch_Some in Hm as (Hidx & Hmatch & _).
    destruct (insertParts child pat rest) as [child'|] eqn:Hc; simpl; [|done].
    intros [= <-]. apply allTrails_unfold. destruct n as [pt q cs w].
    cbn [pattern children setChildren] in *. split; [done|].
    apply Forall_insert; [done|].
    rewrite (insertParts_label _ _ _ _ Hc).
    eapply IH; [| |done].
    + intros ext Hext. rewrite <- app_assoc. apply Hpat.
      constructor; [by apply childMatches_placedOn|done].
    + rewrite Forall_forall in Hcs. apply Hcs.
      by eapply list_elem_of_lookup_2.
  - destruct (newChild p) as [child|] eqn:Hnew; simpl; [|done].
    pose proof (newChild_label _ _ Hnew) as Hlabel.
    apply newChild_inv in Hnew as (_ & Hcp & _ & Hcc).
    destruct (insertParts child pat rest) as [child'|] eqn:Hc; simpl; [|done].
    intros [= <-]. apply allTrails_unfold. destruct n as [pt q cs w].
    cbn [pattern children setChildren] in *. split; [done|].
    apply Forall_app. split; [done|]. constructor; [|done].
    rewrite (insertParts_label _ _ _ _ Hc).
    eapply IH; [| |done].
    + intros ext Hext. rewrite <- app_assoc. apply Hpat.
      constructor; [|done]. rewrite Hlabel. by left.
    + apply allTrails_unfold. rewrite Hcp, Hcc. by split.
Qed.

Lemma reachable_placedAlong {HandlerFunc : Type} (r : router HandlerFunc) :
  reachable r →
  ∀ method rt, root r !! method = Some rt →
    allTrails placedAlong [] rt ∧ isWild rt = false.
Proof.
  induction 1 as [|r method pat h r' _ IH Hadd]; intros method' rt0.
  { unfold NewRouter. simpl. by rewrite lookup_empty. }
  apply AddRoutes_inv in Hadd as (rt' & Hrt & Hroot & _).
  rewrite Hroot, lookup_insert. case_decide as Hm; [|by apply IH].
  intros [= <-].
  assert (Hold : allTrails placedAlong [] (default emptyNode (root r !! method))
                 ∧ isWild (default emptyNode (root r !! method)) = false).
  { destruct (root r !! method) as [rt|] eqn:Hold; simpl; [by eapply IH|].
    split; [|done]. split; [by intros ?|done]. }
  destruct Hold as [Hold Hw]. split.
  - eapply (insertParts_allTrails placedAlong pat (parsePattern pat));
      [| |exact Hold|exact Hrt].
    + by intros trail Hne.
    + by intros ext Hext _.
  - by destruct (insertParts_shape _ _ _ _ Hrt) as [_ ->].
Qed.

Lemma childMatches_static (c : node) (p : string) :
  childMatches c p = true → isWild c = false → part c = p.
Proof.
  unfold childMatches. intros H Hw. rewrite Hw, orb_false_r in H.
  by apply String.eqb_eq.
Qed.

Lemma matched_sound (parts : list string) (h : nat) (n m : node) :
  matched parts h n m →
  ∀ trail, wellShaped n → allTrails placedAlong trail n →
    ∃ ext,
      allTrails placedAlong (trail ++ ext) m
      ∧ ((ext = [] ∧ m = n ∧ (isWild n = true ∨ length parts = h))
         ∨ (isWild n = false
            ∧ ∃ ps, ext = ((λ p, (p, false)) <$> ps) ++ [label m]
                    ∧ Forall (λ p, startsWild p = false) ps
                    ∧ ((isWild m = true
                        ∧ ∃ rest', drop h parts = ps ++ rest' ∧ rest' ≠ [])
                       ∨ (isWild m = false
                          ∧ drop h parts = ps ++ [part m])))).
Proof.
  induction 1 as [h n Hend Hpat|h n p c m Hlen Hnw Hp Hc Hcp _ IH];
    intros trail Hshape Htrail.
  { exists []. rewrite app_nil_r. split; [done|]. left.
    split_and!; [done..|]. destruct Hend; [by right|by left]. }
  apply allNodes_unfold in Hshape as [(_ & Hlab & _) Hshapes].
  apply allTrails_unfold in Htrail as [_ Htrails].
  rewrite Forall_forall in Hshapes. rewrite Forall_forall in Htrails.
  rewrite Forall_forall in Hlab.
  destruct (Hlab (label c)) as [_ Hwc]; [by apply list_elem_of_fmap_2|].
  simpl in Hwc.
  destruct (IH (trail ++ [label c]) (Hshapes c Hc) (Htrails c Hc))
    as (ext' & Hm & Hcases).
  exists (label c :: ext'). rewrite <- app_assoc in Hm. split; [done|].
  right. split; [done|]. rewrite (drop_S _ _ _ Hp).
  destruct Hcases as [(-> & -> & Hend)|(Hcw & ps & -> & Hps & Htail)].
  - exists []. split_and!; [done|done|].
    destruct (isWild c) eqn:Hw.
    + left. split; [done|]. by exists (p :: drop (S h) parts).
    + right. split; [done|]. destruct Hend as [|Hend]; [done|].
      rewrite drop_ge by lia. by rewrite (childMatches_static c p).
  - pose proof (childMatches_static c p Hcp Hcw) as Hpc.
    exists (p :: ps). split_and!.
    + unfold label at 1. by rewrite Hpc, Hcw.
    + constructor; [|done]. rewrite <- Hpc. congruence.
    + destruct Htail as [(Hmw & rest' & -> & Hne)|(Hmw & ->)].
      * left. split; [done|]. by exists rest'.
      * by right.
Qed.

Lemma Forall2_placedOn_static (segs ps : list string) :
  Forall2 placedOn segs ((λ p, (p, false)) <$> ps) → segs = ps.
Proof.
  revert segs. induction ps as [|p ps IH]; intros segs Hf; simpl in Hf.
  { by inversion Hf. }
  destruct segs as [|seg segs]; [by inversion Hf|].
  apply Forall2_cons_1 in Hf as [[Hseg|Hw] Hrest]; [|done].
  simpl in Hseg. subst. f_equal. by apply IH.
Qed.

Section ResolutionProperties.

Context {HandlerFunc : Type}.
Implicit Types (r : router HandlerFunc).

Lemma getRoute_hit_inv r (method path : string) (n : node)
    (params : gmap string string) :
  getRoute r method path = Ok (Some (n, params)) →
  ∃ rt, root r !! method = Some rt
        ∧ search rt (parsePattern path) 0 = Ok (Some n)
        ∧ paramsLoop (parsePattern (pattern n)) (parsePattern path) 0 ∅
          = Ok params.
Proof.
  unfold getRoute.
  destruct (root r !! method) as [rt|] eqn:Hroot; [|done].
  destruct (search rt (parsePattern path) 0) as [[m|]|] eqn:Hs;
    cbn [mbind res_bind]; [|done..].
  destruct (paramsLoop _ _ _ _) as [ps|] eqn:Hps; cbn [mbind res_bind];
    [|done].
  intros [= <- <-]. by exists rt.
Qed.

(** In a router built by registrations, a path resolves only to a
    pattern with which it agrees on every segment before the last, these
    segments beginning with neither [:] nor [*]; and when the node found
    is not wild, the path has exactly the segments of the pattern.  So a
    pattern with a named or wildcard segment before its last segment is
    never the one a path resolves to. *)
Theorem resolution_agrees_with_path r (method path : string) (n : node)
    (params : gmap string string) :
  reachable r →
  getRoute r method path = Ok (Some (n, params)) →
  let segs := parsePattern (pattern n) in
  let sp := parsePattern path in
  length segs ≤ length sp
  ∧ take (length segs - 1) segs = take (length segs - 1) sp
  ∧ Forall (λ seg, startsWild seg = false) (take (length segs - 1) segs)
  ∧ (isWild n = false → segs = sp)
  ∧ (isWild n = true → segs ≠ [] ∧ length segs < S (length sp)).
Proof.
  intros Hr Hroute segs sp.
  apply getRoute_hit_inv in Hroute as (rt & Hroot & Hs & _).
  destruct (search_found rt sp 0 n) as (Hne & _); [lia|done|].
  apply search_matched in Hs.
  destruct (reachable_placedAlong r Hr method rt Hroot) as [Htrail Hrw].
  pose proof (reachable_wellShaped r Hr method rt Hroot) as Hshape.
  destruct (matched_sound _ _ _ _ Hs [] Hshape Htrail) as (ext & Hm & Hcases).
  apply allTrails_unfold in Hm as [Hm _]. specialize (Hm Hne).
  fold segs in Hm. simpl in Hm. rewrite drop_0 in Hcases.
  destruct Hcases as [(-> & -> & Hend)|(_ & ps & -> & Hps & Htail)].
  - apply Forall2_nil_inv_r in Hm. rewrite Hm. simpl.
    split_and!; [lia|done|done| |by rewrite Hrw].
    intros _. destruct Hend as [|Hend]; [congruence|].
    symmetry. by apply nil_length_inv.
  - apply Forall2_app_inv_r in Hm as (segs0 & segl & Hsegs0 & Hsegl & Hsegs).
    apply Forall2_placedOn_static in Hsegs0 as ->.
    apply Forall2_length in Hsegl as Hlen. simpl in Hlen.
    destruct segl as [|seg [|? ?]]; [done| |done].
    apply Forall2_cons_1 in Hsegl as [Hseg _].
    rewrite Hsegs, length_app. simpl.
    replace (length ps + 1 - 1) with (length ps) by lia.
    rewrite take_app_length.
    destruct Htail as [(Hmw & rest' & Hsp & Hrest)|(Hmw & Hsp)];
      fold sp in Hsp; rewrite Hsp.
    + rewrite take_app_length, length_app.
      destruct rest' as [|q rest']; [done|]. simpl.
      split_and!; [lia|done|done|congruence|].
      intros _. split; [by destruct ps|lia].
    + rewrite take_app_length, length_app. simpl.
      split_and!; [lia|done|done| |congruence].
      intros _. destruct Hseg as [Hseg|Hseg]; simpl in Hseg; [|congruence].
      by rewrite Hseg.
Qed.

End ResolutionProperties.

Lemma resolution_agrees_with_path_witness :
  length (parsePattern "/hello/:name") ≤ length (parsePattern "/hello/bob/x")
  ∧ take (length (parsePattern "/hello/:name") - 1)
         (parsePattern "/hello/:name")
    = take (length (parsePattern "/hello/:name") - 1)
           (parsePattern "/hello/bob/x").
Proof.
  destruct (resolution_agrees_with_path helloRouter "GET" "/hello/bob/x"
              (Node "/hello/:name" ":name" [] true) {["name" := "bob"]}
              helloRouter_reachable) as (H1 & H2 & _).
  - vm_compute. reflexivity.
  - split; [exact H1|exact H2].
Defined.

(** ** The parameters of a resolution *)

Lemma paramsLoop_sound (searchParts : list string) (parts : list string) :
  ∀ (i : nat) (params params' : gmap string string),
    paramsLoop parts searchParts i params = Ok params' →
    ∀ k v, params' !! k = Some v →
      params !! k = Some v
      ∨ ∃ j seg,
          parts !! j = Some seg ∧ tail1 seg = k
          ∧ ((String.get 0 seg = Some ":"%char
              ∧ searchParts !! (i + j) = Some v)
             ∨ (String.get 0 seg = Some "*"%char
                ∧ joinParts (drop (i + j) searchParts) = Ok v)).
Proof.
  induction parts as [|p parts IH]; intros i params params'; simpl.
  { intros [= <-] k v Hk. by left. }
  destruct p as [|c p]; [done|]. cbn [byte0 mbind res_bind tail1].
  assert (Hshift : ∀ k v (ps : gmap string string),
    (ps !! k = Some v
     ∨ ∃ j seg, parts !! j = Some seg ∧ tail1 seg = k
         ∧ ((String.get 0 seg = Some ":"%char
             ∧ searchParts !! (S i + j) = Some v)
            ∨ (String.get 0 seg = Some "*"%char
               ∧ joinParts (drop (S i + j) searchParts) = Ok v))) →
    ps !! k = Some v
    ∨ ∃ j seg, (String c p :: parts) !! j = Some seg ∧ tail1 seg = k
        ∧ ((String.get 0 seg = Some ":"%char
            ∧ searchParts !! (i + j) = Some v)
           ∨ (String.get 0 seg = Some "*"%char
              ∧ joinParts (drop (i + j) searchParts) = Ok v))).
  { intros k v ps [?|(j & seg & Hj & Hk & Hv)]; [by left|right].
    exists (S j), seg. replace (i + S j) with (S i + j) by lia. done. }
  destruct (Ascii.eqb_spec c ":") as [->|Hcolon].
  - unfold index. destruct (searchParts !! i) as [v0|] eqn:Hv0; [|done].
    cbn [mbind res_bind]. intros Hloop k v Hk.
    destruct (IH _ _ _ Hloop k v Hk) as [Hins|Hlater].
    + rewrite lookup_insert in Hins. case_decide as Hkp.
      * injection Hins as <-. right. exists 0, (String ":" p).
        rewrite Nat.add_0_r. split_and!; [done..|]. by left.
      * by left.
    + apply Hshift. by right.
  - destruct (Ascii.eqb_spec c "*") as [->|Hstar].
    + unfold sliceList.
      destruct (decide (i ≤ length searchParts)); [|done].
      cbn [mbind res_bind].
      destruct (joinParts (drop i searchParts)) as [v0|] eqn:Hv0; [|done].
      cbn [mbind res_bind]. intros [= <-] k v Hk.
      rewrite lookup_insert in Hk. case_decide as Hkp; [|by left].
      injection Hk as <-. right. exists 0, (String "*" p).
      rewrite Nat.add_0_r. split_and!; [done..|]. by right.
    + intros Hloop k v Hk. apply Hshift. by eapply IH.
Qed.

Lemma paramsLoop_static (searchParts : list string) (parts : list string) :
  Forall (λ seg, startsWild seg = false) parts →
  ∀ (i : nat) (params params' : gmap string string),
    paramsLoop parts searchParts i params = Ok params' → params' = params.
Proof.
  induction 1 as [|p parts Hp _ IH]; intros i params params'; simpl.
  { by intros [= <-]. }
  destruct p as [|c p]; [done|]. cbn [byte0 mbind res_bind].
  simpl in Hp. apply orb_false_elim in Hp as [-> ->]. apply IH.
Qed.

(** Every parameter that a resolution binds comes from a segment of the
    pattern found that begins with [:] or [*], under the name that
    follows this byte: its value is the segment of the path at the same
    position, or for [*] the join of the segments of the path from that
    position on.  A pattern without such a segment binds nothing. *)
Theorem params_come_from_the_pattern {HandlerFunc : Type}
    (r : router HandlerFunc) (method path : string) (n : node)
    (params : gmap string string) :
  getRoute r method path = Ok (Some (n, params)) →
  (∀ k v, params !! k = Some v →
     ∃ j seg,
       parsePattern (pattern n) !! j = Some seg ∧ tail1 seg = k
       ∧ ((String.get 0 seg = Some ":"%char
           ∧ parsePattern path !! j = Some v)
          ∨ (String.get 0 seg = Some "*"%char
             ∧ joinParts (drop j (parsePattern path)) = Ok v)))
  ∧ (Forall (λ seg, startsWild seg = false) (parsePattern (pattern n)) →
     params = ∅).
Proof.
  intros Hroute.
  apply getRoute_hit_inv in Hroute as (rt & _ & _ & Hloop). split.
  - intros k v Hk.
    destruct (paramsLoop_sound _ _ _ _ _ Hloop k v Hk) as [Hempty|H]; [|done].
    by rewrite lookup_empty in Hempty.
  - intros Hstatic. by eapply paramsLoop_static.
Qed.

Lemma params_come_from_the_pattern_witness :
  ∃ j seg,
    parsePattern "/hello/:name" !! j = Some seg ∧ tail1 seg = "name"
    ∧ ((String.get 0 seg = Some ":"%char
        ∧ parsePattern "/hello/bob" !! j = Some "bob")
       ∨ (String.get 0 seg = Some "*"%char
          ∧ joinParts (drop j (parsePattern "/hello/bob")) = Ok "bob")).
Proof.
  destruct (params_come_from_the_pattern helloRouter "GET" "/hello/bob"
              (Node "/hello/:name" ":name" [] true) {["name" := "bob"]})
    as [H _].
  - vm_compute. reflexivity.
  - apply (H "name" "bob"). reflexivity.
Defined.

(** ** Routers of static patterns *)

Lemma searchChildren_none (f : node → res (option node)) (p : string)
    (cs : list node) :
  Forall (λ c, childMatches c p = false) cs → searchChildren f p cs = Ok None.
Proof. induction 1 as [|c cs Hc _ IH]; simpl; [done|]. by rewrite Hc. Qed.

Lemma searchChildren_single (f : node → res (option node)) (p : string)
    (cs : list node) :
  NoDup (part <$> cs) → Forall (λ c, isWild c = false) cs →
  searchChildren f p cs
  = match firstMatch cs p with
    | Some ic => f ic.2
    | None => Ok None
    end.
Proof.
  induction cs as [|c cs IH]; intros Hdup Hnw; simpl; [done|].
  apply NoDup_cons in Hdup as [Hc Hdup]. apply Forall_cons in Hnw as [Hcw Hnw].
  destruct (childMatches c p) eqn:Hcp.
  - simpl. rewrite searchChildren_none.
    + by destruct (f c) as [[m|]|].
    + apply Forall_forall. intros c' Hc'.
      destruct (childMatches c' p) eqn:Hc'p; [|done].
      rewrite Forall_forall in Hnw.
      rewrite <- (childMatches_static c p Hcp Hcw) in Hc'p.
      apply childMatches_static in Hc'p; [|by apply Hnw].
      destruct Hc. rewrite <- Hc'p. by apply list_elem_of_fmap_2.
  - rewrite IH by done. by destruct (firstMatch cs p) as [[i c']|].
Qed.

Lemma search_walk (n : node) :
  ∀ (parts : list string) (height : nat),
    allNodes (λ n, isWild n = false) n → wellShaped n →
    height ≤ length parts →
    search n parts height
    = Ok (m ← walk n (drop height parts);
          if String.eqb (pattern m) "" then None else Some m).
Proof.
  induction n as [pat p cs w IH] using node_ind'; intros parts height Hnw Hsh Hh.
  apply allNodes_unfold in Hnw as [Hw Hnws]. cbn [isWild children] in Hw, Hnws.
  apply allNodes_unfold in Hsh as [(Hdup & _ & _) Hshs].
  cbn [children] in Hdup, Hshs. subst w.
  rewrite search_unfold. cbn [pattern isWild children]. rewrite orb_false_r.
  destruct (decide (length parts = height)) as [Hlen|Hlen].
  { rewrite bool_decide_eq_true_2 by done. rewrite drop_ge by lia. simpl.
    by destruct (String.eqb pat ""). }
  rewrite bool_decide_eq_false_2 by done.
  destruct (parts !! height) as [q|] eqn:Hq.
  2: { apply lookup_ge_None in Hq. lia. }
  rewrite (drop_S _ _ _ Hq). cbn [walk children].
  rewrite searchChildren_single.
  - destruct (firstMatch cs q) as [[i c]|] eqn:Hf; simpl; [|done].
    apply firstMatch_Some in Hf as (Hi & _ & _).
    apply list_elem_of_lookup_2 in Hi.
    rewrite Forall_forall in IH, Hnws, Hshs.
    apply IH; [done|by apply Hnws|by apply Hshs|lia].
  - by rewrite <- list_fmap_compose in Hdup.
  - eapply Forall_impl; [exact Hnws|]. intros c Hc.
    by apply allNodes_unfold in Hc as [Hc _].
Qed.

Lemma childMatches_label (c c' : node) (q : string) :
  label c' = label c → childMatches c' q = childMatches c q.
Proof. intros [= Hp Hw]. by apply childMatches_shape. Qed.

Lemma firstMatch_insert_label (cs : list node) (q : string) :
  ∀ (idx : nat) (child child' : node),
    cs !! idx = Some child → label child' = label child →
    firstMatch (<[idx:=child']> cs) q
    = (λ ic, (ic.1, if decide (ic.1 = idx) then child' else ic.2))
        <$> firstMatch cs q.
Proof.
  induction cs as [|c cs IH]; intros idx child child' Hidx Hlabel; [done|].
  destruct idx as [|idx]; simpl in *.
  - injection Hidx as ->. rewrite (childMatches_label child child') by done.
    destruct (childMatches child q); [done|].
    by destruct (firstMatch cs q) as [[i c']|].
  - destruct (childMatches c q); [done|].
    rewrite (IH _ _ _ Hidx Hlabel).
    destruct (firstMatch cs q) as [[i c']|]; simpl; [|done].
    destruct (decide (i = idx)) as [->|Hne];
      [by rewrite decide_True|by rewrite decide_False by lia].
Qed.

Lemma firstMatch_snoc (cs : list node) (c : node) (q : string) :
  firstMatch (cs ++ [c]) q
  = match firstMatch cs q with
    | Some ic => Some ic
    | None => if childMatches c q then Some (length cs, c) else None
    end.
Proof.
  induction cs as [|c0 cs IH]; simpl.
  { by destruct (childMatches c q). }
  destruct (childMatches c0 q); [done|]. rewrite IH.
  destruct (firstMatch cs q) as [[i c']|]; simpl; [done|].
  by destruct (childMatches c q).
Qed.

Lemma patAt_nil (n : node) : patAt n [] = pattern n.
Proof. done. Qed.

Lemma patAt_cons (n : node) (p : string) (q : list string) :
  patAt n (p :: q)
  = match firstMatch (children n) p with
    | Some ic => patAt ic.2 q
    | None => ""
    end.
Proof. unfold patAt. simpl. by destruct (firstMatch (children n) p). Qed.

Lemma patAt_leaf (pat p : string) (w : bool) (q : list string) :
  patAt (Node pat p [] w) q = if decide (q = []) then pat else "".
Proof. by destruct q. Qed.

(** In a tree without wild node, the insertion of a static pattern
    changes what is stored at the end of its own segments and nowhere
    else. *)
Lemma insertParts_patAt (pat : string) (rest : list string) :
  Forall (λ seg, startsWild seg = false) rest →
  ∀ n n',
    allNodes (λ n, isWild n = false) n →
    insertParts n pat rest = Ok n' →
    allNodes (λ n, isWild n = false) n'
    ∧ ∀ q, patAt n' q = if decide (q = rest) then pat else patAt n q.
Proof.
  induction 1 as [|p rest Hp _ IH]; intros n n' Hn; simpl.
  { intros [= <-]. apply allNodes_unfold in Hn as [Hw Hcs]. split.
    - apply allNodes_unfold. by destruct n.
    - intros [|p q]; [done|]. rewrite !patAt_cons. by destruct n. }
  apply allNodes_unfold in Hn as [Hw Hcs].
  unfold matchChildren.
  destruct (firstMatch (children n) p) as [[idx child]|] eqn:Hm.
  - pose proof Hm as Hm0.
    apply firstMatch_Some in Hm as (Hidx & Hmatch & _).
    destruct (insertParts child pat rest) as [child'|] eqn:Hc; simpl; [|done].
    intros [= <-]. destruct n as [pt pp cs w].
    cbn [pattern children setChildren isWild] in *.
    assert (Hchild : allNodes (λ n, isWild n = false) child).
    { rewrite Forall_forall in Hcs. apply Hcs. by eapply list_elem_of_lookup_2. }
    destruct (IH _ _ Hchild Hc) as [Hchild' Hpat].
    pose proof (insertParts_label _ _ _ _ Hc) as Hlabel.
    assert (Hcw : isWild child = false).
    { by apply allNodes_unfold in Hchild as [? _]. }
    pose proof (childMatches_static child p Hmatch Hcw) as Hpart.
    split.
    + apply allNodes_unfold. split; [done|]. by apply Forall_insert.
    + intros [|p' q]; [done|]. rewrite !patAt_cons. cbn [children].
      rewrite (firstMatch_insert_label _ _ _ _ _ Hidx Hlabel).
      destruct (decide (p' = p)) as [->|Hne].
      * rewrite Hm0. simpl. rewrite decide_True by done. rewrite Hpat.
        destruct (decide (q = rest)) as [->|Hq].
        -- by rewrite decide_True.
        -- rewrite decide_False; [done|]. by intros [= ?].
      * rewrite (decide_False (P := p' :: q = p :: rest)) by (by intros [= ? ?]).
        destruct (firstMatch cs p') as [[i c]|] eqn:Hf; simpl; [|done].
        destruct (decide (i = idx)) as [->|]; [|done].
        apply firstMatch_Some in Hf as (Hi & Hcp' & _).
        rewrite Hidx in Hi. injection Hi as <-.
        by rewrite (childMatches_static child p' Hcp' Hcw) in Hpart.
  - destruct (newChild p) as [child|] eqn:Hnew; simpl; [|done].
    pose proof (newChild_label _ _ Hnew) as Hlabel.
    apply newChild_inv in Hnew as (_ & Hcp & Hcpart & Hcc).
    destruct (insertParts child pat rest) as [child'|] eqn:Hc; simpl; [|done].
    intros [= <-]. destruct n as [pt pp cs w].
    cbn [pattern children setChildren isWild] in *.
    assert (Hcw : isWild child = false).
    { injection Hlabel as _ ->. done. }
    assert (Hchild : allNodes (λ n, isWild n = false) child).
    { apply allNodes_unfold. rewrite Hcc. by split. }
    destruct (IH _ _ Hchild Hc) as [Hchild' Hpat].
    destruct (insertParts_shape _ _ _ _ Hc) as [Hpart' Hwild'].
    split.
    + apply allNodes_unfold. split; [done|].
      apply Forall_app. split; [done|]. by constructor.
    + intros [|p' q]; [done|]. rewrite !patAt_cons. cbn [children setChildren].
      rewrite firstMatch_snoc.
      assert (Hcm : childMatches child' p' = bool_decide (p' = p)).
      { unfold childMatches. rewrite Hwild', Hcw, orb_false_r, Hpart', Hcpart.
        destruct (String.eqb_spec p p') as [->|Hne].
        - by rewrite bool_decide_eq_true_2.
        - by rewrite bool_decide_eq_false_2. }
      destruct (decide (p' = p)) as [->|Hne].
      * rewrite Hm, Hcm, bool_decide_eq_true_2 by done. simpl. rewrite Hpat.
        destruct child as [cpat cp ccs cw]. simpl in Hcp, Hcc.
        rewrite Hcp, Hcc, patAt_leaf.
        destruct (decide (q = rest)) as [->|Hq].
        -- by rewrite decide_True.
        -- rewrite (decide_False (P := p :: q = p :: rest))
             by (by intros [= ?]).
           by destruct (decide (q = [])).
      * rewrite (decide_False (P := p' :: q = p :: rest)) by (by intros [= ? ?]).
        destruct (firstMatch cs p') as [[i c]|]; [done|].
        by rewrite Hcm, bool_decide_eq_false_2.
Qed.

Lemma walk_atDepth (q : list string) :
  ∀ n m, walk n q = Some m → atDepth n (length q) m.
Proof.
  induction q as [|p q IH]; intros n m; simpl.
  { intros [= <-]. constructor. }
  destruct (firstMatch (children n) p) as [[i c]|] eqn:Hf; simpl; [|done].
  intros Hw. apply firstMatch_Some in Hf as (Hi & _ & _).
  eapply atDepth_child; [by eapply list_elem_of_lookup_2|by apply IH].
Qed.

Lemma paramsLoop_static_Ok (searchParts : list string) (parts : list string) :
  Forall (λ seg, startsWild seg = false) parts →
  Forall (λ seg, seg ≠ "") parts →
  ∀ (i : nat) (params : gmap string string),
    paramsLoop parts searchParts i params = Ok params.
Proof.
  induction 1 as [|p parts Hp _ IH]; intros Hne i params; simpl; [done|].
  apply Forall_cons in Hne as [Hpne Hne].
  destruct p as [|c p]; [done|]. cbn [byte0 mbind res_bind].
  simpl in Hp. apply orb_false_elim in Hp as [-> ->]. by apply IH.
Qed.

Section StaticRouters.

Context {HandlerFunc : Type}.
Implicit Types (r : router HandlerFunc) (h : HandlerFunc).

Lemma staticReachable_reachable r : staticReachable r → reachable r.
Proof.
  induction 1 as [|r method pat h r' _ IH _ Hadd]; [constructor|].
  by eapply reachable_add.
Qed.

Lemma staticReachable_inv r :
  staticReachable r →
  ∀ method rt, root r !! method = Some rt →
    allNodes (λ n, isWild n = false) rt
    ∧ allPatterns (λ _ pat, staticPattern pat) 0 rt.
Proof.
  induction 1 as [|r method pat h r' _ IH Hpat Hadd]; intros method' rt0.
  { unfold NewRouter. simpl. by rewrite lookup_empty. }
  apply AddRoutes_inv in Hadd as (rt' & Hrt & Hroot & _).
  rewrite Hroot, lookup_insert. case_decide as Hm; [|by apply IH].
  intros [= <-].
  assert (Hold : allNodes (λ n, isWild n = false)
                   (default emptyNode (root r !! method))
                 ∧ allPatterns (λ _ pat, staticPattern pat) 0
                     (default emptyNode (root r !! method))).
  { destruct (root r !! method) as [rt|] eqn:Hold; simpl; [by eapply IH|].
    split_and!; [done|done|constructor|done]. }
  destruct Hold as [Hnw Hpats]. split.
  - by destruct (insertParts_patAt pat _ Hpat _ _ Hnw Hrt) as [? _].
  - eapply (insertParts_allPatterns _ pat (parsePattern pat));
      [| |exact Hpats|exact Hrt]; [|exact Hpat].
    intros d. unfold staticPattern.
    change (parsePattern "") with (@nil string). constructor.
Qed.

(** In a router of static patterns a path resolves to the pattern that
    the tree of the method stores at the end of the segments of the
    path, with no parameter, and misses when nothing is stored there. *)
Lemma static_resolvedPattern r (method path : string) :
  staticReachable r →
  resolvedPattern r method path
  = Ok (let pat := patAt (default emptyNode (root r !! method))
                     (parsePattern path) in
        if decide (pat = "") then None else Some (pat, ∅)).
Proof.
  intros Hr. unfold resolvedPattern, getRoute.
  destruct (root r !! method) as [rt|] eqn:Hroot; simpl.
  2: { unfold emptyNode. rewrite patAt_leaf.
       destruct (decide (parsePattern path = [])); by rewrite decide_True. }
  destruct (staticReachable_inv r Hr method rt Hroot) as [Hnw Hpats].
  pose proof (reachable_wellShaped r (staticReachable_reachable r Hr)
                method rt Hroot) as Hsh.
  rewrite search_walk by (done || lia). rewrite drop_0. unfold patAt.
  destruct (walk rt (parsePattern path)) as [m|] eqn:Hw; simpl; [|done].
  destruct (String.eqb_spec (pattern m) "") as [Hm|Hm].
  { by rewrite decide_True. }
  rewrite decide_False by done. cbn [mbind res_bind].
  apply walk_atDepth in Hw.
  pose proof (allPatterns_atDepth _ _ _ _ Hw 0 Hpats) as Hmp.
  apply allPatterns_unfold in Hmp as [Hmp _].
  by rewrite (paramsLoop_static_Ok _ _ Hmp (parsePattern_nonempty _)).
Qed.

Lemma static_resolvedPattern_add r (method pat : string) h
    (r' : router HandlerFunc) :
  staticReachable r →
  staticPattern pat →
  AddRoutes r method pat h = Ok r' →
  ∀ method' path,
    resolvedPattern r' method' path
    = if decide (method' = method ∧ parsePattern path = parsePattern pat)
      then (if decide (pat = "") then Ok None else Ok (Some (pat, ∅)))
      else resolvedPattern r method' path.
Proof.
  intros Hr Hpat Hadd.
  assert (Hr' : staticReachable r') by (by eapply staticReachable_add).
  apply AddRoutes_inv in Hadd as (rt' & Hrt & Hroot & Hhs).
  intros method' path.
  rewrite !static_resolvedPattern by done. rewrite Hroot, lookup_insert.
  destruct (decide (method = method')) as [<-|Hm]; simpl.
  - assert (Hnw : allNodes (λ n, isWild n = false)
                    (default emptyNode (root r !! method))).
    { destruct (root r !! method) as [rt|] eqn:Hold; simpl; [|done].
      by destruct (staticReachable_inv r Hr method rt Hold). }
    destruct (insertParts_patAt pat _ Hpat _ _ Hnw Hrt) as [_ Hat].
    rewrite Hat.
    destruct (decide (parsePattern path = parsePattern pat)) as [Hp|Hp].
    + rewrite (decide_True (P := _ ∧ _)) by done.
      by destruct (decide (pat = "")).
    + rewrite (decide_False (P := _ ∧ _)); [done|]. by intros [_ ?].
  - rewrite (decide_False (P := _ ∧ _)); [done|]. by intros [? _].
Qed.

(** Static routes resolve as entries of a map from segment sequences to
    patterns: after the registration of a static pattern in a router of
    static patterns, the paths with the segments of the pattern resolve
    to it, with no parameter and with its handler in the table, other
    paths of the method resolve as before, and so do all paths of other
    methods.  (The empty pattern, which has the segments of [/], takes
    the route of [/] away.) *)
Theorem static_routes_resolve_as_a_map r (method pat : string) h
    (r' : router HandlerFunc) :
  staticReachable r →
  staticPattern pat →
  AddRoutes r method pat h = Ok r' →
  handlers r' !! handlerKey method pat = Some h
  ∧ ∀ method' path,
      resolvedPattern r' method' path
      = if decide (method' = method
                   ∧ parsePattern path = parsePattern pat)
        then (if decide (pat = "") then Ok None else Ok (Some (pat, ∅)))
        else resolvedPattern r method' path.
Proof.
  intros Hr Hpat Hadd. split.
  - apply AddRoutes_inv in Hadd as (rt' & _ & _ & Hhs).
    by rewrite Hhs, lookup_insert_eq.
  - by eapply static_resolvedPattern_add.
Qed.

End StaticRouters.

Lemma static_routes_resolve_as_a_map_witness :
  ∃ r' : router nat,
    AddRoutes NewRouter "GET" "/api/users" 3 = Ok r'
    ∧ resolvedPattern r' "GET" "//api/users/" = Ok (Some ("/api/users", ∅)).
Proof.
  destruct (AddRoutes_Ok (NewRouter : router nat) "GET" "/api/users" 3)
    as (rt & _ & Hadd).
  eexists. split; [exact Hadd|].
  destruct (static_routes_resolve_as_a_map NewRouter "GET" "/api/users" 3 _
              staticReachable_new ltac:(repeat constructor) Hadd) as [_ H].
  rewrite H. reflexivity.
Defined.

(** ** Registrations that do not meet *)

Lemma handlerKey_inj (m m' p p' : string) :
  containsByte "_" m = false → containsByte "_" m' = false →
  handlerKey m p = handlerKey m' p' → m = m' ∧ p = p'.
Proof.
  unfold handlerKey. revert m'.
  induction m as [|c m IH]; intros [|c' m'] Hm Hm'; string_app_simpl.
  - by intros [= ->].
  - intros [= <- _]. simpl in Hm'. done.
  - intros [= -> _]. simpl in Hm. done.
  - simpl in Hm, Hm'.
    apply orb_false_elim in Hm as [_ Hm].
    apply orb_false_elim in Hm' as [_ Hm'].
    intros [= -> Hrest]. destruct (IH m' Hm Hm' Hrest) as [-> ->]. done.
Qed.

Section Frames.

Context {HandlerFunc : Type}.
Implicit Types (r : router HandlerFunc) (h : HandlerFunc).

(** A registration changes no tree but that of its method and no entry
    of the handler table but that of its key, so that every path of
    another method resolves as before; and the keys of two registrations
    whose methods hold no [_] are the same only when method and pattern
    are. *)
Theorem registration_leaves_the_rest r (method pat : string) h
    (r' : router HandlerFunc) :
  AddRoutes r method pat h = Ok r' →
  (∀ method', method' ≠ method →
     root r' !! method' = root r !! method'
     ∧ ∀ path, getRoute r' method' path = getRoute r method' path)
  ∧ (∀ key, key ≠ handlerKey method pat →
       handlers r' !! key = handlers r !! key)
  ∧ (∀ method' pat',
       containsByte "_" method = false → containsByte "_" method' = false →
       (method', pat') ≠ (method, pat) →
       handlers r' !! handlerKey method' pat'
       = handlers r !! handlerKey method' pat').
Proof.
  intros Hadd. apply AddRoutes_inv in Hadd as (rt' & _ & Hroot & Hhs).
  split_and!.
  - intros method' Hne.
    assert (Hlook : root r' !! method' = root r !! method').
    { by rewrite Hroot, lookup_insert_ne. }
    split; [done|]. intros path. unfold getRoute. by rewrite Hlook.
  - intros key Hkey. by rewrite Hhs, lookup_insert_ne.
  - intros method' pat' Hm Hm' Hne. rewrite Hhs, lookup_insert_ne; [done|].
    intros Hkey. apply handlerKey_inj in Hkey as [-> ->]; done.
Qed.

End Frames.

Lemma registration_leaves_the_rest_witness :
  getRoute helloRouter "POST" "/hello/bob"
  = getRoute (NewRouter : router nat) "POST" "/hello/bob".
Proof.
  destruct (registration_leaves_the_rest (NewRouter : router nat)
              "GET" "/hello/:name" 7 helloRouter) as [H _].
  - vm_compute. reflexivity.
  - apply (H "POST"). discriminate.
Defined.

(** ** Groups *)

Section Engines.

Context {HandlerFunc ResponseWriter httpRequest : Type}.
Variable http_Error : ResponseWriter → string → Z → ResponseWriter.
Variable reqMethod : httpRequest → string.
Variable reqURLPath : httpRequest → string.
Variable call :
  HandlerFunc → Context HandlerFunc ResponseWriter httpRequest
  → res (Context HandlerFunc ResponseWriter httpRequest).

Implicit Types (r : router HandlerFunc) (h : HandlerFunc).
Implicit Types (e : Engine HandlerFunc) (grp : RouterGroup HandlerFunc).
Implicit Types (gs : list (RouterGroup HandlerFunc)).

Lemma assignMiddlewares_app gs1 gs2 (path : string) :
  assignMiddlewares (gs1 ++ gs2) path
  = assignMiddlewares gs1 path ++ assignMiddlewares gs2 path.
Proof.
  unfold assignMiddlewares. rewrite foldl_app.
  rewrite (assignMiddlewares_from gs2 path (foldl _ _ gs1)).
  by rewrite (assignMiddlewares_from gs2 path []).
Qed.

Lemma assignMiddlewares_cons grp gs (path : string) :
  assignMiddlewares (grp :: gs) path
  = (if HasPrefix path (prefix grp) then middlewares grp else [])
      ++ assignMiddlewares gs path.
Proof.
  unfold assignMiddlewares. simpl.
  rewrite assignMiddlewares_from, (assignMiddlewares_from gs path []).
  by destruct (HasPrefix path (prefix grp)).
Qed.

Lemma HasPrefix_nil (path : string) : HasPrefix path "" = true.
Proof. apply HasPrefix_spec. by exists path. Qed.

Lemma HasPrefix_app (path pfx s : string) :
  HasPrefix path (pfx +:+ s) = true → HasPrefix path pfx = true.
Proof.
  rewrite !HasPrefix_spec. intros [t ->]. exists (s +:+ t).
  by rewrite string_app_assoc.
Qed.

Lemma reachableEngine_inv e :
  reachableEngine e →
  (∃ g0, groups e !! 0 = Some g0 ∧ prefix g0 = "")
  ∧ (∀ g grp, groups e !! g = Some grp → groupOk (groups e) g grp)
  ∧ reachable (engineRouter e).
Proof.
  induction 1 as [cfg|e g pfx e' g' _ IH Hgroup|e g mws e' _ IH Huse
                 |e g method comp h e' _ IH Hroute|e pat h e' _ IH Hopt].
  - split_and!; [by eexists| |constructor].
    intros [|g] grp; simpl; [|done]. by intros [= <-].
  - destruct IH as ((g0 & Hg0 & Hp0) & Hgs & Hr). unfold Group in Hgroup.
    destruct (groups e !! g) as [pgrp|] eqn:Hg; simpl in Hgroup; [|done].
    injection Hgroup as <- <-. cbn [groups engineRouter]. split_and!; [|..|done].
    + exists g0. split; [|done]. by apply lookup_app_l_Some.
    + intros i grp Hi. apply lookup_app_Some in Hi as [Hi|[Hlen Hi]].
      * specialize (Hgs i grp Hi). unfold groupOk in *.
        destruct (parent grp) as [p|]; [|done].
        destruct Hgs as (Hlt & pg & s & Hp & Hpre). split; [done|].
        exists pg, s. split; [|done]. by apply lookup_app_l_Some.
      * apply list_lookup_singleton_Some in Hi as [Hi <-].
        unfold groupOk. cbn [parent prefix].
        pose proof (lookup_lt_Some _ _ _ Hg). split; [lia|].
        exists pgrp, pfx. split; [|done]. by apply lookup_app_l_Some.
  - destruct IH as ((g0 & Hg0 & Hp0) & Hgs & Hr). unfold Use in Huse.
    destruct (groups e !! g) as [ugrp|] eqn:Hg; simpl in Huse; [|done].
    injection Huse as <-. cbn [groups engineRouter]. split_and!; [|..|done].
    + destruct (decide (g = 0)) as [->|Hne].
      * rewrite list_lookup_insert_eq by (by eapply lookup_lt_Some).
        rewrite Hg in Hg0. injection Hg0 as ->.
        eexists. split; [done|]. done.
      * rewrite list_lookup_insert_ne by done. by exists g0.
    + assert (Hlook : ∀ p pg, groups e !! p = Some pg →
                ∃ pg', <[g:=mkRouterGroup (prefix ugrp)
                               (middlewares ugrp ++ mws) (parent ugrp)]>
                         (groups e) !! p = Some pg'
                       ∧ prefix pg' = prefix pg ∧ parent pg' = parent pg).
      { intros p pg Hp. destruct (decide (p = g)) as [->|Hne].
        - rewrite list_lookup_insert_eq by (by eapply lookup_lt_Some).
          rewrite Hg in Hp. injection Hp as ->.
          eexists. split; [done|]. done.
        - rewrite list_lookup_insert_ne by done. by exists pg. }
      intros i grp Hi.
      assert (∃ grp0, groups e !! i = Some grp0
                      ∧ prefix grp = prefix grp0 ∧ parent grp = parent grp0)
        as (grp0 & Hi0 & Hpre0 & Hpar0).
      { destruct (decide (i = g)) as [->|Hne].
        - rewrite list_lookup_insert_eq in Hi by (by eapply lookup_lt_Some).
          injection Hi as <-. by exists ugrp.
        - rewrite list_lookup_insert_ne in Hi by done. by exists grp. }
      specialize (Hgs i grp0 Hi0). unfold groupOk in *.
      rewrite Hpar0, Hpre0. destruct (parent grp0) as [p|]; [|done].
      destruct Hgs as (Hlt & pg & s & Hp & Hpre). split; [done|].
      destruct (Hlook p pg Hp) as (pg' & Hp' & Hpre' & _).
      exists pg', s. split; [done|]. by rewrite Hpre'.
  - destruct IH as (Hroot & Hgs & Hr). unfold groupAddRoutes in Hroute.
    destruct (groups e !! g) as [rgrp|]; simpl in Hroute; [|done].
    destruct (AddRoutes _ _ _ _) as [r'|] eqn:Hadd; simpl in Hroute; [|done].
    injection Hroute as <-. cbn [groups engineRouter].
    split_and!; [done..|]. by eapply reachable_add.
  - destruct IH as (Hroot & Hgs & Hr). unfold OPTION in Hopt.
    destruct (AddRoutes _ _ _ _) as [r'|] eqn:Hadd; simpl in Hopt; [|done].
    injection Hopt as <-. cbn [groups engineRouter].
    split_and!; [done..|]. by eapply reachable_add.
Qed.

(** In an engine built by [New], [Group], [Use] and the registration
    forms, the middlewares of the root group begin the sequence of every
    request, whatever its path. *)
Theorem root_middlewares_come_first e (path : string) :
  reachableEngine e →
  ∃ g0 rest,
    groups e !! rootGroup = Some g0
    ∧ assignMiddlewares (groups e) path = middlewares g0 ++ rest.
Proof.
  intros He. destruct (reachableEngine_inv e He) as ((g0 & Hg0 & Hp0) & _).
  destruct (groups e) as [|g0' gs] eqn:Hgs; [done|].
  simpl in Hg0. injection Hg0 as ->.
  exists g0, (assignMiddlewares gs path). split; [done|].
  by rewrite assignMiddlewares_cons, Hp0, HasPrefix_nil.
Qed.

(** In such an engine a group lies behind its parent and its prefix
    begins with the prefix of the parent: a request that is given the
    middlewares of a group is given those of the parent too, and earlier
    in the sequence. *)
Theorem parent_middlewares_precede e (g : nat) grp (p : nat) (path : string) :
  reachableEngine e →
  groups e !! g = Some grp →
  parent grp = Some p →
  HasPrefix path (prefix grp) = true →
  ∃ pg l1 l2 l3,
    groups e !! p = Some pg ∧ p < g
    ∧ HasPrefix path (prefix pg) = true
    ∧ assignMiddlewares (groups e) path
      = l1 ++ middlewares pg ++ l2 ++ middlewares grp ++ l3.
Proof.
  intros He Hg Hpar Hpath.
  destruct (reachableEngine_inv e He) as (_ & Hgs & _).
  specialize (Hgs g grp Hg). unfold groupOk in Hgs. rewrite Hpar in Hgs.
  destruct Hgs as (Hlt & pg & s & Hp & Hpre).
  assert (Hppath : HasPrefix path (prefix pg) = true).
  { rewrite Hpre in Hpath. by eapply HasPrefix_app. }
  exists pg.
  rewrite <- (take_drop_middle _ _ _ Hg).
  assert (Hp' : take g (groups e) !! p = Some pg).
  { by rewrite lookup_take_lt. }
  rewrite <- (take_drop_middle _ _ _ Hp').
  exists (assignMiddlewares (take p (take g (groups e))) path),
         (assignMiddlewares (drop (S p) (take g (groups e))) path),
         (assignMiddlewares (drop (S g) (groups e)) path).
  rewrite !(take_drop_middle _ _ _ Hp'), !(take_drop_middle _ _ _ Hg).
  split_and!; [done..|].
  rewrite <- (take_drop_middle _ _ _ Hg) at 1.
  rewrite <- (take_drop_middle _ _ _ Hp') at 1.
  rewrite !assignMiddlewares_app, !assignMiddlewares_cons, Hpath, Hppath.
  by rewrite <- !app_assoc.
Qed.

(** Two [Use] calls on a group do what one call with both lists does,
    and [Use] changes the middleware list of its group only. *)
Theorem Use_accumulates e (g : nat) (A B : list HandlerFunc) :
  (e1 ← Use e g A; Use e1 g B) = Use e g (A ++ B)
  ∧ ∀ e', Use e g A = Some e' →
      ∃ grp, groups e !! g = Some grp
             ∧ middlewares <$> groups e'
               = <[g := middlewares grp ++ A]> (middlewares <$> groups e)
             ∧ prefix <$> groups e' = prefix <$> groups e
             ∧ engineRouter e' = engineRouter e.
Proof.
  unfold Use. destruct (groups e !! g) as [grp|] eqn:Hg; simpl; [|done].
  pose proof (lookup_lt_Some _ _ _ Hg) as Hlt. split.
  - rewrite list_lookup_insert_eq by done. simpl.
    by rewrite list_insert_insert_eq, app_assoc.
  - intros e' [= <-]. exists grp. cbn [groups engineRouter].
    split_and!; [done| | |done].
    + by rewrite list_fmap_insert.
    + rewrite list_fmap_insert. simpl. apply list_insert_id.
      by rewrite list_lookup_fmap, Hg.
Qed.

End Engines.

Lemma helloEngine_reachable : reachableEngine helloEngine.
Proof.
  apply (reachableEngine_route
           (mkEngine NewRouter [mkRouterGroup "" [0] None]
              (mkConfig [] [] false))
           0 "GET" "/hello/:name" 7); [|vm_compute; reflexivity].
  apply (reachableEngine_use (New []) 0 [0]); [|reflexivity].
  apply (reachableEngine_new []).
Defined.

Lemma apiEngine_reachable : reachableEngine apiEngine.
Proof.
  apply (reachableEngine_use
           (mkEngine NewRouter
              [mkRouterGroup "" [] None; mkRouterGroup "/api" [1] (Some 0);
               mkRouterGroup "/api/v1" [] (Some 1)] (mkConfig [] [] false))
           2 [2]); [|reflexivity].
  apply (reachableEngine_use
           (mkEngine NewRouter
              [mkRouterGroup "" [] None; mkRouterGroup "/api" [] (Some 0);
               mkRouterGroup "/api/v1" [] (Some 1)] (mkConfig [] [] false))
           1 [1]); [|reflexivity].
  apply (reachableEngine_group
           (mkEngine NewRouter
              [mkRouterGroup "" [] None; mkRouterGroup "/api" [] (Some 0)]
              (mkConfig [] [] false))
           1 "/v1" _ 2); [|reflexivity].
  apply (reachableEngine_group (New []) 0 "/api" _ 1); [|reflexivity].
  apply (reachableEngine_new []).
Defined.

Lemma root_middlewares_come_first_witness :
  ∃ g0 rest,
    groups helloEngine !! rootGroup = Some g0
    ∧ assignMiddlewares (groups helloEngine) "/hello/bob"
      = middlewares g0 ++ rest.
Proof.
  apply (root_middlewares_come_first helloEngine "/hello/bob"
           helloEngine_reachable).
Defined.

Lemma parent_middlewares_precede_witness :
  ∃ pg l1 l2 l3,
    groups apiEngine !! 1 = Some pg ∧ 1 < 2
    ∧ HasPrefix "/api/v1/users" (prefix pg) = true
    ∧ assignMiddlewares (groups apiEngine) "/api/v1/users"
      = l1 ++ middlewares pg ++ l2 ++ [2] ++ l3.
Proof.
  apply (parent_middlewares_precede apiEngine 2
           (mkRouterGroup "/api/v1" [2] (Some 1)) 1 "/api/v1/users"
           apiEngine_reachable); reflexivity.
Defined.

(** ** Dispatch of registered routes, and the CORS middleware *)

Lemma allowedOrigin_first (origins : list string) (origin o : string) :
  firstAllowed origins origin o → allowedOrigin origins origin = o.
Proof.
  intros (before & after & -> & Ho & Hbefore).
  induction Hbefore as [|x before Hx _ IH]; simpl.
  - destruct Ho as [->| ->]; [done|].
    by rewrite String.eqb_refl, orb_true_r.
  - destruct (String.eqb_spec x "*") as [->|_]; [by destruct Hx; left|].
    destruct (String.eqb_spec x origin) as [->|_]; [by destruct Hx; right|].
    exact IH.
Qed.

Lemma allowedOrigin_none (origins : list string) (origin : string) :
  Forall (λ x, ¬ originMatches origin x) origins →
  allowedOrigin origins origin = "".
Proof.
  induction 1 as [|x origins Hx _ IH]; simpl; [done|].
  destruct (String.eqb_spec x "*") as [->|_]; [by destruct Hx; left|].
  destruct (String.eqb_spec x origin) as [->|_]; [by destruct Hx; right|].
  exact IH.
Qed.

Lemma firstAllowed_cases (origins : list string) (origin : string) :
  (∃ o, firstAllowed origins origin o)
  ∨ Forall (λ x, ¬ originMatches origin x) origins.
Proof.
  induction origins as [|x origins IH]; [right; constructor|].
  destruct (decide (x = "*")) as [->|Hstar].
  { left. exists "*", [], origins. split_and!; [done|by left|constructor]. }
  destruct (decide (x = origin)) as [->|Horigin].
  { left. exists origin, [], origins. split_and!; [done|by right|constructor]. }
  assert (Hx : ¬ originMatches origin x) by (by intros [?|?]).
  destruct IH as [(o & before & after & -> & Ho & Hbefore)|Hnone].
  - left. exists o, (x :: before), after. split_and!; [done|done|by constructor].
  - right. by constructor.
Qed.

Section Serving.

Context {HandlerFunc ResponseWriter httpRequest : Type}.
Variable http_Error : ResponseWriter → string → Z → ResponseWriter.
Variable reqMethod : httpRequest → string.
Variable reqURLPath : httpRequest → string.
Variable call :
  HandlerFunc → Context HandlerFunc ResponseWriter httpRequest
  → res (Context HandlerFunc ResponseWriter httpRequest).
Variable reqHeaderGet : httpRequest → string → string.
Variable rwHeaderSet : ResponseWriter → string → string → ResponseWriter.
Variable rwWriteHeader : ResponseWriter → Z → ResponseWriter.

Implicit Types (r : router HandlerFunc) (h : HandlerFunc).
Implicit Types (ctx : Context HandlerFunc ResponseWriter httpRequest).
Implicit Types (e : Engine HandlerFunc) (grp : RouterGroup HandlerFunc).

Lemma ServeHTTP_unfold e (w : ResponseWriter) (req : httpRequest) :
  ServeHTTP http_Error reqMethod reqURLPath call e w req
  = let ctx := mkContext req w ∅ (reqMethod req) (reqURLPath req) 0 (-1)
                 (engineConfig e)
                 (assignMiddlewares (groups e) (reqURLPath req)) in
    match getRoute (engineRouter e) (reqMethod req) (reqURLPath req) with
    | Ok (Some (n, params)) =>
        match handlers (engineRouter e)
                !! handlerKey (reqMethod req) (pattern n) with
        | Some h => call h (setParams ctx params)
        | None => Fault
        end
    | Ok None =>
        Ok (setResponseWriter ctx (http_Error w "NOT FOUND" 404))
    | Fault => Fault
    end.
Proof.
  unfold ServeHTTP, handle, newContext, setMiddleware. cbn [Ctx HTTPMethod
    RoutePath Request ResponseWriter_ Params ResponseCode current config
    middleware].
  destruct (getRoute _ _ _) as [[[n params]|]|]; done.
Qed.

(** [OPTION] registers under the method [OPTION]: a request whose method
    is [OPTIONS] is served after it exactly as before it. *)
Theorem OPTION_is_not_OPTIONS e (pat : string) h (e' : Engine HandlerFunc) :
  OPTION e pat h = Ok e' →
  handlers (engineRouter e') !! handlerKey "OPTION" pat = Some h
  ∧ groups e' = groups e
  ∧ ∀ w req,
      reqMethod req = "OPTIONS" →
      ServeHTTP http_Error reqMethod reqURLPath call e' w req
      = ServeHTTP http_Error reqMethod reqURLPath call e w req.
Proof.
  unfold OPTION.
  destruct (AddRoutes _ _ _ _) as [r'|] eqn:Hadd; simpl; [|done].
  intros [= <-]. cbn [engineRouter groups].
  apply AddRoutes_inv in Hadd as (rt' & _ & Hroot & Hhs).
  split_and!; [by rewrite Hhs, lookup_insert_eq|done|].
  intros w req Hm. rewrite !ServeHTTP_unfold.
  cbn [engineRouter groups engineConfig]. rewrite Hm.
  assert (Hroute : ∀ path, getRoute r' "OPTIONS" path
                           = getRoute (engineRouter e) "OPTIONS" path).
  { intros path. unfold getRoute. by rewrite Hroot, lookup_insert_ne. }
  rewrite Hroute.
  destruct (getRoute _ _ _) as [[[n params]|]|]; [|done..].
  rewrite Hhs, lookup_insert_ne; [done|].
  unfold handlerKey. by intros [=].
Qed.

Lemma resolvedPattern_hit r (method path pat : string)
    (params : gmap string string) :
  resolvedPattern r method path = Ok (Some (pat, params)) →
  ∃ n, getRoute r method path = Ok (Some (n, params)) ∧ pattern n = pat.
Proof.
  unfold resolvedPattern.
  destruct (getRoute r method path) as [[[n ps]|]|]; [|done..].
  intros [= <- <-]. by exists n.
Qed.

(** A static route registered through a group is served: in an engine
    whose router holds static patterns only, after a registration of
    [comp] on a group under some method, a request of that method whose
    path has the segments of the prefix of the group followed by those of
    [comp] calls the handler, on the new context with no parameter and
    with the middlewares assigned to the path. *)
Theorem group_route_is_served e (g : nat) grp (method comp : string) h
    (e' : Engine HandlerFunc) (w : ResponseWriter) (req : httpRequest) :
  staticReachable (engineRouter e) →
  groups e !! g = Some grp →
  staticPattern (prefix grp +:+ comp) →
  prefix grp +:+ comp ≠ "" →
  groupAddRoutes e g method comp h = Some (Ok e') →
  reqMethod req = method →
  parsePattern (reqURLPath req) = parsePattern (prefix grp +:+ comp) →
  ServeHTTP http_Error reqMethod reqURLPath call e' w req
  = call h (mkContext req w ∅ method (reqURLPath req) 0 (-1)
              (engineConfig e)
              (assignMiddlewares (groups e) (reqURLPath req))).
Proof.
  intros Hr Hg Hstatic Hne Hadd Hm Hpath.
  unfold groupAddRoutes in Hadd. rewrite Hg in Hadd. simpl in Hadd.
  destruct (AddRoutes _ _ _ _) as [r'|] eqn:Hr'; simpl in Hadd; [|done].
  injection Hadd as <-.
  pose proof (static_resolvedPattern_add _ _ _ _ _ Hr Hstatic Hr'
                method (reqURLPath req)) as Hres.
  rewrite decide_True, decide_False in Hres by done.
  apply resolvedPattern_hit in Hres as (n & Hroute & Hn).
  apply AddRoutes_inv in Hr' as (_ & _ & _ & Hhs).
  rewrite ServeHTTP_unfold. cbn [engineRouter groups engineConfig].
  by rewrite Hm, Hroute, Hn, Hhs, lookup_insert_eq.
Qed.

(** The CORS middleware looks for the first entry of [AllowOrigins] that
    is [*] or the [Origin] header of the request.  When there is one and
    it is not empty, [Access-Control-Allow-Origin] is set to this entry,
    before the headers of the methods and of the credentials; when there
    is none, or the first is the empty entry that meets a missing
    [Origin], that header is not set.  Then a request of method [OPTIONS]
    gets status 200 written and [Next] is not called, and on any other
    request the middleware goes on to [Next].  One of the two cases
    holds of every configuration. *)
Theorem cors_allows_configured_origins (cfg : Config) ctx :
  let origin := reqHeaderGet (Request ctx) "Origin" in
  let others (w : ResponseWriter) :=
    let w := match AllowMethods cfg with
             | [] => w
             | _ => rwHeaderSet w "Access-Control-Allow-Methods"
                      (String.concat ", " (AllowMethods cfg))
             end in
    if AllowCredentials cfg
    then rwHeaderSet w "Access-Control-Allow-Credentials" "true"
    else w in
  let finish (w : ResponseWriter) :=
    if String.eqb (reqMethod (Request ctx)) "OPTIONS"
    then Ok (setResponseWriter ctx (rwWriteHeader w 200))
    else Next call (setResponseWriter ctx w) in
  let cors :=
    CORSMiddleware reqMethod call reqHeaderGet rwHeaderSet rwWriteHeader
      cfg ctx in
  (∀ o, firstAllowed (AllowOrigins cfg) origin o →
        allowedOrigin (AllowOrigins cfg) origin = o
        ∧ (o ≠ "" →
           cors = finish (others (rwHeaderSet (ResponseWriter_ ctx)
                                    "Access-Control-Allow-Origin" o)))
        ∧ (o = "" → cors = finish (others (ResponseWriter_ ctx))))
  ∧ (Forall (λ x, ¬ originMatches origin x) (AllowOrigins cfg) →
     allowedOrigin (AllowOrigins cfg) origin = ""
     ∧ cors = finish (others (ResponseWriter_ ctx)))
  ∧ ((∃ o, firstAllowed (AllowOrigins cfg) origin o)
     ∨ Forall (λ x, ¬ originMatches origin x) (AllowOrigins cfg)).
Proof.
  intros origin others finish cors.
  assert (Hcors : ∀ o, allowedOrigin (AllowOrigins cfg) origin = o →
            cors = finish (others (if String.eqb o "" then ResponseWriter_ ctx
                                   else rwHeaderSet (ResponseWriter_ ctx)
                                          "Access-Control-Allow-Origin" o))).
  { intros o Ho. unfold cors, CORSMiddleware. fold origin. rewrite Ho.
    unfold finish, others, joinStrings. by destruct (AllowMethods cfg). }
  split_and!.
  - intros o Ho. apply allowedOrigin_first in Ho. split_and!; [done| |].
    + intros Hne. rewrite (Hcors o Ho).
      by destruct (String.eqb_spec o "").
    + intros ->. by rewrite (Hcors "" Ho).
  - intros Hnone. apply allowedOrigin_none in Hnone. split; [done|].
    by rewrite (Hcors "" Hnone).
  - apply firstAllowed_cases.
Qed.

End Serving.

Lemma group_route_is_served_witness :
  ServeHTTP logError fst snd quietCall
    (mkEngine (mkRouter {["GET" := Node "" ""
                                     [Node "" "api"
                                        [Node "/api/ping" "ping" [] false]
                                        false] false]}
                 {["GET_/api/ping" := 7]})
       [mkRouterGroup "" [] None; mkRouterGroup "/api" [] (Some 0)]
       (mkConfig [] [] false))
    [] ("GET", "/api/ping/")
  = Ok (mkContext ("GET", "/api/ping/") [] ∅ "GET" "/api/ping/" 0 (-1)
          (mkConfig [] [] false) []).
Proof.
  apply (group_route_is_served logError fst snd quietCall
           (mkEngine NewRouter
              [mkRouterGroup "" [] None; mkRouterGroup "/api" [] (Some 0)]
              (mkConfig [] [] false))
           1 (mkRouterGroup "/api" [] (Some 0)) "GET" "/ping" 7).
  - constructor.
  - reflexivity.
  - repeat constructor.
  - discriminate.
  - vm_compute. reflexivity.
  - reflexivity.
  - reflexivity.
Defined.

Lemma OPTION_is_not_OPTIONS_witness :
  ServeHTTP logError fst snd quietCall
    (mkEngine (mkRouter {["OPTION" := Node "/" "" [] false]}
                 {["OPTION_/" := 9]})
       [mkRouterGroup "" [] None] (mkConfig [] [] false)) [] ("OPTIONS", "/")
  = ServeHTTP logError fst snd quietCall (New []) [] ("OPTIONS", "/").
Proof.
  destruct (OPTION_is_not_OPTIONS logError fst snd quietCall
              (New []) "/" 9
              (mkEngine (mkRouter {["OPTION" := Node "/" "" [] false]}
                           {["OPTION_/" := 9]})
                 [mkRouterGroup "" [] None] (mkConfig [] [] false)))
    as (_ & _ & H).
  - vm_compute. reflexivity.
  - apply H. reflexivity.
Defined.

Lemma cors_allows_configured_origins_witness :
  CORSMiddleware fst passCall originHeader setHeader writeStatus
    (mkConfig ["https://a.example"; "https://b.example"; "*"]
       ["GET"; "POST"] true)
    (mkContext ("GET", "https://b.example") ([], 0%Z) ∅ "GET" "/" 0 (-1)
       (mkConfig [] [] false) [])
  = Ok (mkContext ("GET", "https://b.example")
          ([("Access-Control-Allow-Origin", "https://b.example");
            ("Access-Control-Allow-Methods", "GET, POST");
            ("Access-Control-Allow-Credentials", "true")], 0%Z)
          ∅ "GET" "/" 0 0 (mkConfig [] [] false) []).
Proof.
  destruct (cors_allows_configured_origins fst passCall originHeader
              setHeader writeStatus
              (mkConfig ["https://a.example"; "https://b.example"; "*"]
                 ["GET"; "POST"] true)
              (mkContext ("GET", "https://b.example") ([], 0%Z) ∅ "GET" "/"
                 0 (-1) (mkConfig [] [] false) [])) as (H & _).
  destruct (H "https://b.example") as (_ & Hset & _).
  - exists ["https://a.example"], ["*"].
    split_and!; [reflexivity|by right|].
    constructor; [|constructor]. by intros [?|?].
  - etrans; [apply Hset; discriminate|]. vm_compute. reflexivity.
Defined.

(** ** The first route of a method *)

Lemma newChild_startsWild (p : string) :
  p ≠ "" → newChild p = Ok (Node "" p [] (startsWild p)).
Proof. by destruct p. Qed.

Lemma insertParts_leaf (pat : string) (rest : list string) :
  Forall (λ p, p ≠ "") rest →
  ∀ (pt q : string) (w : bool),
    insertParts (Node pt q [] w) pat rest
    = Ok (Node (match rest with [] => pat | _ => pt end) q
            (chainBelow pat rest) w).
Proof.
  induction 1 as [|p rest Hp _ IH]; intros pt q w; [done|].
  cbn [insertParts matchChildren children firstMatch].
  rewrite newChild_startsWild by done. cbn [mbind res_bind].
  rewrite IH. cbn [mbind res_bind setChildren pattern part isWild children].
  simpl. by destruct rest.
Qed.

Lemma search_chain (pat : string) (statics : list string) (w : string) :
  pat ≠ "" →
  Forall (λ seg, startsWild seg = false) statics →
  startsWild w = true →
  ∀ (pt q : string) (parts : list string) (height : nat) (v : string)
    (extra : list string),
    drop height parts = statics ++ v :: extra →
    search (Node pt q (chainBelow pat (statics ++ [w])) false) parts height
    = Ok (Some (Node pat w [] true)).
Proof.
  intros Hpat Hstatics Hw.
  induction Hstatics as [|s statics Hs _ IH];
    intros pt q parts height v extra Hdrop.
  - cbn [app] in Hdrop. rewrite search_unfold. cbn [isWild pattern children].
    assert (Hp : parts !! height = Some v).
    { rewrite <- (Nat.add_0_r height), <- lookup_drop, Hdrop. done. }
    pose proof (lookup_lt_Some _ _ _ Hp) as Hlt.
    rewrite bool_decide_eq_false_2 by lia. cbn [orb]. rewrite Hp.
    cbn [chainBelow app searchChildren]. unfold childMatches at 1.
    cbn [isWild part]. rewrite Hw, orb_true_r.
    rewrite search_unfold. cbn [isWild pattern]. rewrite orb_true_r.
    by destruct (String.eqb_spec pat "").
  - rewrite search_unfold. cbn [isWild pattern children].
    assert (Hp : parts !! height = Some s).
    { rewrite <- (Nat.add_0_r height), <- lookup_drop, Hdrop. done. }
    pose proof (lookup_lt_Some _ _ _ Hp) as Hlt.
    rewrite bool_decide_eq_false_2 by lia. cbn [orb]. rewrite Hp.
    cbn [chainBelow app searchChildren]. unfold childMatches at 1.
    cbn [isWild part]. rewrite String.eqb_refl. cbn [orb].
    rewrite Hs. erewrite IH.
    + done.
    + rewrite (drop_S _ _ _ Hp) in Hdrop. by injection Hdrop.
Qed.

Lemma paramsLoop_skip_statics (searchParts statics rest : list string) :
  Forall (λ seg, startsWild seg = false) statics →
  Forall (λ seg, seg ≠ "") statics →
  ∀ (i : nat) (params : gmap string string),
    paramsLoop (statics ++ rest) searchParts i params
    = paramsLoop rest searchParts (i + length statics) params.
Proof.
  induction 1 as [|p statics Hp _ IH]; intros Hne i params; simpl.
  { by rewrite Nat.add_0_r. }
  apply Forall_cons in Hne as [Hpne Hne].
  destruct p as [|c p]; [done|]. cbn [byte0 mbind res_bind].
  simpl in Hp. apply orb_false_elim in Hp as [-> ->].
  rewrite IH by done. f_equal. lia.
Qed.

Section FirstRoute.

Context {HandlerFunc ResponseWriter httpRequest : Type}.
Implicit Types (r : router HandlerFunc) (h : HandlerFunc).
Implicit Types (ctx : Context HandlerFunc ResponseWriter httpRequest).

(** The first route of a method, when all its segments but the last are
    static and the last begins with [:] or [*]: every path that has the
    static segments and then at least one more resolves to it.  A last
    segment [:name] binds [name] to the next segment of the path, and
    what follows that segment in the path is not looked at; a last
    segment [*name] binds [name] to the join of all that is left. *)
Theorem first_route_matches_by_prefix r (method pat : string) h
    (r' : router HandlerFunc) (statics : list string) (w path v : string)
    (extra : list string) ctx :
  root r !! method = None →
  parsePattern pat = statics ++ [w] →
  Forall (λ seg, startsWild seg = false) statics →
  startsWild w = true →
  AddRoutes r method pat h = Ok r' →
  parsePattern path = statics ++ v :: extra →
  ∃ n params,
    getRoute r' method path = Ok (Some (n, params))
    ∧ pattern n = pat
    ∧ handlers r' !! handlerKey method pat = Some h
    ∧ params = {[tail1 w := if bool_decide (String.get 0 w = Some ":"%char)
                            then v else String.concat "/" (v :: extra)]}
    ∧ Param (setParams ctx params) (tail1 w)
      = if bool_decide (String.get 0 w = Some ":"%char)
        then v else String.concat "/" (v :: extra).
Proof.
  intros Hroot Hparts Hstatics Hw Hadd Hpath.
  pose proof (parsePattern_nonempty pat) as Hne. rewrite Hparts in Hne.
  assert (Hpat : pat ≠ "").
  { intros ->. by destruct statics. }
  apply AddRoutes_inv in Hadd as (rt' & Hrt & Hroot' & Hhs).
  rewrite Hroot, Hparts in Hrt. simpl in Hrt. unfold emptyNode in Hrt.
  rewrite insertParts_leaf in Hrt by done. injection Hrt as <-.
  exists (Node pat w [] true).
  unfold getRoute. rewrite Hroot', lookup_insert_eq.
  erewrite search_chain; [|done..|by rewrite drop_0].
  cbn [mbind res_bind pattern]. rewrite Hparts.
  apply Forall_app in Hne as [Hne Hwne].
  rewrite paramsLoop_skip_statics by done. rewrite Hpath. simpl.
  destruct w as [|c w]; [done|]. cbn [byte0 mbind res_bind tail1 String.get].
  simpl in Hw.
  assert (Hv : (statics ++ v :: extra) !! length statics = Some v).
  { by rewrite lookup_app_r, Nat.sub_diag. }
  assert (Hparam : ∀ x : string,
            Param (setParams ctx {[w := x]}) w = x).
  { intros x. unfold Param. cbn [Params setParams].
    by rewrite lookup_singleton_eq. }
  destruct (Ascii.eqb_spec c ":") as [->|Hcolon].
  - unfold index. rewrite Hv. cbn [mbind res_bind].
    rewrite bool_decide_eq_true_2 by done.
    eexists. split_and!; [done|done|by rewrite Hhs, lookup_insert_eq|done|].
    apply Hparam.
  - simpl in Hw. destruct (Ascii.eqb_spec c "*") as [->|]; [|done].
    unfold sliceList.
    destruct (decide (length statics ≤ length (statics ++ v :: extra))) as [_|Hn].
    2: { rewrite length_app in Hn. lia. }
    cbn [mbind res_bind]. rewrite drop_app_length, joinParts_concat.
    cbn [mbind res_bind].
    rewrite bool_decide_eq_false_2 by (by intros [=]).
    eexists. split_and!; [done|done|by rewrite Hhs, lookup_insert_eq|done|].
    apply Hparam.
Qed.

End FirstRoute.

Lemma first_route_matches_by_prefix_witness :
  ∃ n params,
    getRoute helloRouter "GET" "/hello/bob/and/more" = Ok (Some (n, params))
    ∧ pattern n = "/hello/:name"
    ∧ params = {["name" := "bob"]}.
Proof.
  destruct (first_route_matches_by_prefix (ResponseWriter := logResponse)
              (httpRequest := string * string)
              NewRouter "GET" "/hello/:name" 7 helloRouter
              ["hello"] ":name" "/hello/bob/and/more" "bob" ["and"; "more"]
              (mkContext ("GET", "/") [] ∅ "GET" "/" 0 (-1)
                 (mkConfig [] [] false) []))
    as (n & params & H1 & H2 & _ & H3 & _).
  - reflexivity.
  - reflexivity.
  - repeat constructor.
  - reflexivity.
  - vm_compute. reflexivity.
  - reflexivity.
  - exists n, params. split_and!; [exact H1|exact H2|exact H3].
Defined.

(** ** A later route on the node of a wild segment *)

Lemma insertParts_chain (pat1 pat2 : string) (statics : list string)
    (w x : string) :
  Forall (λ seg, startsWild seg = false) statics →
  startsWild w = true →
  ∀ (pt q : string) (wl : bool),
    insertParts (Node pt q (chainBelow pat1 (statics ++ [w])) wl) pat2
      (statics ++ [x])
    = Ok (Node pt q (chainBelow pat2 (statics ++ [w])) wl).
Proof.
  intros Hstatics Hw.
  induction Hstatics as [|s statics Hs _ IH]; intros pt q wl.
  - cbn [app chainBelow insertParts matchChildren children firstMatch].
    unfold childMatches. cbn [isWild part]. rewrite Hw, orb_true_r.
    reflexivity.
  - cbn [app chainBelow insertParts matchChildren children firstMatch].
    unfold childMatches at 1. cbn [isWild part].
    rewrite String.eqb_refl. cbn [orb]. rewrite IH.
    cbn [mbind res_bind setChildren pattern part isWild children].
    simpl. by destruct statics.
Qed.

Section LaterRoute.

Context {HandlerFunc : Type}.
Implicit Types (r : router HandlerFunc) (h : HandlerFunc).

(** A route whose last segment begins with [:] or [*] loses its place to
    a later route of the method that has the same static segments and
    one more segment of any kind: the later pattern is stored on the
    node of the wild segment, and every path that resolved to the first
    route now resolves to the later one, with the handler of the later
    one and, when the later segment is static, with no parameter. *)
Theorem later_route_takes_wild_node r (method pat1 pat2 : string) h1 h2
    (r1 r2 : router HandlerFunc) (statics : list string) (w x path v : string)
    (extra : list string) :
  root r !! method = None →
  parsePattern pat1 = statics ++ [w] →
  Forall (λ seg, startsWild seg = false) statics →
  startsWild w = true →
  AddRoutes r method pat1 h1 = Ok r1 →
  parsePattern pat2 = statics ++ [x] →
  AddRoutes r1 method pat2 h2 = Ok r2 →
  parsePattern path = statics ++ v :: extra →
  ∃ n params,
    getRoute r2 method path = Ok (Some (n, params))
    ∧ pattern n = pat2
    ∧ part n = w
    ∧ handlers r2 !! handlerKey method pat2 = Some h2
    ∧ (startsWild x = false → params = ∅).
Proof.
  intros Hroot Hparts1 Hstatics Hw Hadd1 Hparts2 Hadd2 Hpath.
  pose proof (parsePattern_nonempty pat1) as Hne1. rewrite Hparts1 in Hne1.
  pose proof (parsePattern_nonempty pat2) as Hne2. rewrite Hparts2 in Hne2.
  assert (Hpat2 : pat2 ≠ "").
  { intros ->. by destruct statics. }
  apply AddRoutes_inv in Hadd1 as (rt1 & Hrt1 & Hroot1 & _).
  rewrite Hroot, Hparts1 in Hrt1. simpl in Hrt1. unfold emptyNode in Hrt1.
  rewrite insertParts_leaf in Hrt1 by done. injection Hrt1 as <-.
  apply AddRoutes_inv in Hadd2 as (rt2 & Hrt2 & Hroot2 & Hhs2).
  rewrite Hroot1, lookup_insert_eq, Hparts2 in Hrt2. simpl in Hrt2.
  rewrite insertParts_chain in Hrt2 by done. injection Hrt2 as <-.
  exists (Node pat2 w [] true).
  unfold getRoute. rewrite Hroot2, lookup_insert_eq.
  erewrite search_chain; [|done..|by rewrite drop_0].
  cbn [mbind res_bind pattern]. rewrite Hparts2.
  apply Forall_app in Hne2 as [Hnes Hnex].
  destruct (paramsLoop_no_fault (parsePattern path) (statics ++ [x])) with
    (i := 0) (params := (∅ : gmap string string)) as [params Hparams].
  { by apply Forall_app. }
  { rewrite Hpath, !length_app. simpl. lia. }
  rewrite Hparams. cbn [mbind res_bind].
  exists params. split_and!; [done..|by rewrite Hhs2, lookup_insert_eq|].
  intros Hx. eapply paramsLoop_static; [|exact Hparams].
  apply Forall_app. split; [done|]. by constructor.
Qed.

(** In a router built by registrations every node that carries a pattern
    has a handler under the key of its method and pattern, and lies as
    deep as its pattern has segments. *)
Theorem stored_routes_have_handlers r (method : string) (rt n : node) :
  reachable r →
  root r !! method = Some rt →
  n ∈ travel rt [] →
  is_Some (handlers r !! handlerKey method (pattern n))
  ∧ atDepth rt (length (parsePattern (pattern n))) n.
Proof.
  intros Hr Hroot Hn. apply travel_elem in Hn as (Hne & d & Hd).
  pose proof (reachable_routerInv r Hr method rt Hroot) as Hinv.
  pose proof (allPatterns_atDepth _ _ _ _ Hd 0 Hinv) as Hreg.
  apply allPatterns_unfold in Hreg as [Hreg _].
  destruct (Hreg Hne) as [Hlen Hh]. simpl in Hlen. by rewrite Hlen.
Qed.

End LaterRoute.

Lemma later_route_takes_wild_node_witness :
  ∃ n params,
    getRoute (mkRouter
                {["GET" := Node "" "" [Node "" "hello"
                                         [Node "/hello/admin" ":name" [] true]
                                         false] false]}
                (<["GET_/hello/admin" := 8]> {["GET_/hello/:name" := 7]}))
      "GET" "/hello/bob" = Ok (Some (n, params))
    ∧ pattern n = "/hello/admin"
    ∧ params = ∅.
Proof.
  destruct (later_route_takes_wild_node NewRouter "GET" "/hello/:name"
              "/hello/admin" 7 8 helloRouter
              (mkRouter
                 {["GET" := Node "" "" [Node "" "hello"
                                          [Node "/hello/admin" ":name" [] true]
                                          false] false]}
                 (<["GET_/hello/admin" := 8]> {["GET_/hello/:name" := 7]}))
              ["hello"] ":name" "admin" "/hello/bob" "bob" [])
    as (n & params & H1 & H2 & _ & _ & H3);
    [reflexivity|reflexivity|repeat constructor|reflexivity
    |vm_compute; reflexivity|reflexivity|vm_compute; reflexivity
    |reflexivity|].
  exists n, params. split_and!; [exact H1|exact H2|apply H3; reflexivity].
Defined.

Lemma stored_routes_have_handlers_witness :
  is_Some (handlers helloRouter
             !! handlerKey "GET" (pattern (Node "/hello/:name" ":name" [] true)))
  ∧ atDepth (Node "" "" [Node "" "hello"
                           [Node "/hello/:name" ":name" [] true] false] false)
      (length (parsePattern (pattern (Node "/hello/:name" ":name" [] true))))
      (Node "/hello/:name" ":name" [] true).
Proof.
  apply (stored_routes_have_handlers helloRouter "GET" _ _ helloRouter_reachable).
  - reflexivity.
  - vm_compute. by left.
Defined.

(** ** Registering a route again *)

Lemma search_chain_last (pat : string) (statics : list string) (x : string) :
  pat ≠ "" →
  Forall (λ seg, startsWild seg = false) statics →
  ∀ (pt q : string) (parts : list string) (height : nat) (v : string)
    (extra : list string),
    drop height parts = statics ++ v :: extra →
    startsWild x = true ∨ (v = x ∧ extra = []) →
    search (Node pt q (chainBelow pat (statics ++ [x])) false) parts height
    = Ok (Some (Node pat x [] (startsWild x))).
Proof.
  intros Hpat Hstatics.
  induction Hstatics as [|s statics Hs _ IH];
    intros pt q parts height v extra Hdrop Hlast.
  - cbn [app] in Hdrop. rewrite search_unfold. cbn [isWild pattern children].
    assert (Hp : parts !! height = Some v).
    { rewrite <- (Nat.add_0_r height), <- lookup_drop, Hdrop. done. }
    pose proof (lookup_lt_Some _ _ _ Hp) as Hlt.
    rewrite bool_decide_eq_false_2 by lia. cbn [orb]. rewrite Hp.
    cbn [chainBelow app searchChildren]. unfold childMatches at 1.
    cbn [isWild part].
    assert (Hmatch : String.eqb x v || startsWild x = true).
    { destruct Hlast as [->|[-> _]]; [apply orb_true_r|].
      by rewrite String.eqb_refl. }
    rewrite Hmatch. rewrite search_unfold. cbn [isWild pattern].
    assert (Hend : bool_decide (length parts = S height) || startsWild x = true).
    { destruct Hlast as [->|[_ ->]]; [apply orb_true_r|].
      apply (f_equal length) in Hdrop. rewrite length_drop in Hdrop.
      simpl in Hdrop. rewrite bool_decide_eq_true_2 by lia. done. }
    rewrite Hend. by destruct (String.eqb_spec pat "").
  - rewrite search_unfold. cbn [isWild pattern children].
    assert (Hp : parts !! height = Some s).
    { rewrite <- (Nat.add_0_r height), <- lookup_drop, Hdrop. done. }
    pose proof (lookup_lt_Some _ _ _ Hp) as Hlt.
    rewrite bool_decide_eq_false_2 by lia. cbn [orb]. rewrite Hp.
    cbn [chainBelow app searchChildren]. unfold childMatches at 1.
    cbn [isWild part]. rewrite String.eqb_refl. cbn [orb].
    rewrite Hs. erewrite IH.
    + done.
    + rewrite (drop_S _ _ _ Hp) in Hdrop. by injection Hdrop.
    + done.
Qed.

Section Reregistration.

Context {HandlerFunc ResponseWriter httpRequest : Type}.
Variable http_Error : ResponseWriter → string → Z → ResponseWriter.
Variable call :
  HandlerFunc → Context HandlerFunc ResponseWriter httpRequest
  → res (Context HandlerFunc ResponseWriter httpRequest).

Implicit Types (r : router HandlerFunc) (h : HandlerFunc).
Implicit Types (cfg : handlerCfg HandlerFunc ResponseWriter httpRequest).

(** C9: registering the same method and pattern a second time, with
    another handler, panics no more than the first time, leaves the
    trees as the first registration left them, with the pattern on a
    node as deep as it has segments, and puts the second handler in the
    place of the first: every path resolves as before, and a request that
    resolves to the pattern gets the second handler.  Requests do resolve
    to it: when the pattern is the first of its method and has static
    segments followed by one last segment, every request of the method
    whose path has the static segments and then that last segment, or,
    under a last segment that begins with [:] or [*], any segment or
    more, got the first handler before the second registration and gets
    the second one after it, on the same parameters. *)
Theorem reregistration_overwrites_handler r (method pat : string) h1 h2
    (r1 : router HandlerFunc) :
  AddRoutes r method pat h1 = Ok r1 →
  ∃ r2,
    AddRoutes r1 method pat h2 = Ok r2
    ∧ root r2 = root r1
    ∧ handlers r2 = <[handlerKey method pat := h2]> (handlers r)
    ∧ handlers r2 !! handlerKey method pat = Some h2
    ∧ (∀ method' path, getRoute r2 method' path = getRoute r1 method' path)
    ∧ (∀ cfg n params,
         HTTPMethod (Ctx cfg) = method →
         getRoute r2 method (RoutePath (Ctx cfg)) = Ok (Some (n, params)) →
         pattern n = pat →
         handle http_Error call r2 cfg = call h2 (setParams (Ctx cfg) params))
    ∧ (∃ rt m,
         root r2 !! method = Some rt
         ∧ atDepth rt (length (parsePattern pat)) m
         ∧ pattern m = pat)
    ∧ (root r !! method = None →
       ∀ (statics : list string) (x path v : string) (extra : list string)
         cfg,
         parsePattern pat = statics ++ [x] →
         Forall (λ seg, startsWild seg = false) statics →
         parsePattern path = statics ++ v :: extra →
         startsWild x = true ∨ (v = x ∧ extra = []) →
         HTTPMethod (Ctx cfg) = method →
         RoutePath (Ctx cfg) = path →
         ∃ n params,
           getRoute r2 method path = Ok (Some (n, params))
           ∧ pattern n = pat
           ∧ handle http_Error call r1 cfg
             = call h1 (setParams (Ctx cfg) params)
           ∧ handle http_Error call r2 cfg
             = call h2 (setParams (Ctx cfg) params)).
Proof.
  intros Hadd1.
  apply AddRoutes_inv in Hadd1 as (rt & Hrt & Hroot1 & Hhs1).
  destruct (AddRoutes_Ok r1 method pat h2) as (rt2 & Hrt2 & Hadd2).
  rewrite Hroot1, lookup_insert_eq in Hrt2. simpl in Hrt2.
  rewrite (insertParts_idem _ _ _ _ Hrt) in Hrt2. injection Hrt2 as <-.
  eexists. split; [exact Hadd2|]. cbn [root handlers].
  assert (Hroots : <[method:=rt]> (root r1) = root r1).
  { by rewrite Hroot1, insert_insert_eq. }
  assert (Hserve : ∀ h (hs : gmap string HandlerFunc) cfg n params,
            HTTPMethod (Ctx cfg) = method →
            getRoute (mkRouter (root r1) hs) method (RoutePath (Ctx cfg))
            = Ok (Some (n, params)) →
            pattern n = pat →
            hs !! handlerKey method pat = Some h →
            handle http_Error call (mkRouter (root r1) hs) cfg
            = call h (setParams (Ctx cfg) params)).
  { intros h hs cfg n params Hm Hr <- Hh. unfold handle. rewrite Hm, Hr.
    cbn [mbind res_bind handlers setParams HTTPMethod].
    rewrite Hm. fold (handlerKey method (pattern n)). by rewrite Hh. }
  rewrite Hroots.
  split_and!.
  - done.
  - by rewrite Hhs1, insert_insert_eq.
  - by rewrite lookup_insert_eq.
  - done.
  - intros cfg n params Hm Hr Hn.
    eapply Hserve; [done..|by rewrite lookup_insert_eq].
  - destruct (insertParts_terminal _ _ _ _ Hrt) as (m & Hm & Hpat).
    exists rt, m. by rewrite Hroot1, lookup_insert_eq.
  - intros Hnew statics x path v extra cfg Hparts Hstatics Hpath Hlast Hm Hp.
    pose proof (parsePattern_nonempty pat) as Hne. rewrite Hparts in Hne.
    assert (Hpat : pat ≠ "").
    { intros ->. by destruct statics. }
    rewrite Hnew, Hparts in Hrt. simpl in Hrt. unfold emptyNode in Hrt.
    rewrite insertParts_leaf in Hrt by done. injection Hrt as <-.
    assert (Hrest : match statics ++ [x] with [] => pat | _ => "" end = "").
    { by destruct statics. }
    destruct (paramsLoop_no_fault (parsePattern path) (statics ++ [x]) Hne
                0 (∅ : gmap string string)) as [params Hparams].
    { rewrite Hpath, !length_app. simpl. lia. }
    assert (Hroute : ∀ hs : gmap string HandlerFunc,
              getRoute (mkRouter (root r1) hs) method path
              = Ok (Some (Node pat x [] (startsWild x), params))).
    { intros hs. unfold getRoute. cbn [root].
      rewrite Hroot1, lookup_insert_eq.
      erewrite search_chain_last; [|done..|by rewrite drop_0|done].
      cbn [mbind res_bind pattern]. by rewrite Hparts, Hparams. }
    exists (Node pat x [] (startsWild x)), params. split_and!.
    + apply Hroute.
    + done.
    + replace r1 with (mkRouter (root r1) (handlers r1)) by (by destruct r1).
      eapply Hserve; [done|by rewrite Hp|done|].
      cbn [handlers]. by rewrite Hhs1, lookup_insert_eq.
    + eapply Hserve; [done|by rewrite Hp|done|by rewrite lookup_insert_eq].
Qed.

End Reregistration.

Lemma reregistration_overwrites_handler_witness :
  ∃ r2, AddRoutes helloRouter "GET" "/hello/:name" 8 = Ok r2
        ∧ root r2 = root helloRouter
        ∧ handlers r2 !! "GET_/hello/:name" = Some 8
        ∧ handle logError noteCall helloRouter
            (mkHandlerCfg
               (mkContext ("GET", "/hello/bob") [] ∅ "GET" "/hello/bob" 0 (-1)
                  (mkConfig [] [] false) []))
          = Ok (mkContext ("GET", "/hello/bob") [("handler", 7%Z)]
                  {["name" := "bob"]} "GET" "/hello/bob" 0 (-1)
                  (mkConfig [] [] false) [])
        ∧ handle logError noteCall r2
            (mkHandlerCfg
               (mkContext ("GET", "/hello/bob") [] ∅ "GET" "/hello/bob" 0 (-1)
                  (mkConfig [] [] false) []))
          = Ok (mkContext ("GET", "/hello/bob") [("handler", 8%Z)]
                  {["name" := "bob"]} "GET" "/hello/bob" 0 (-1)
                  (mkConfig [] [] false) []).
Proof.
  destruct (reregistration_overwrites_handler logError noteCall
              NewRouter "GET" "/hello/:name" 7 8 helloRouter)
    as (r2 & Hadd & Hroot & _ & Hh & _ & _ & _ & Hhit).
  - vm_compute. reflexivity.
  - destruct (Hhit eq_refl ["hello"] ":name" "/hello/bob" "bob" []
                (mkHandlerCfg
                   (mkContext ("GET", "/hello/bob") [] ∅ "GET" "/hello/bob"
                      0 (-1) (mkConfig [] [] false) [])))
      as (n & params & Hroute & _ & H1 & H2);
      [reflexivity|repeat constructor|reflexivity|by left
      |reflexivity|reflexivity|].
    assert (Hparams : params = {["name" := "bob"]}).
    { unfold getRoute in Hroute. rewrite Hroot in Hroute.
      vm_compute in Hroute. by injection Hroute. }
    subst params. exists r2.
    split_and!; [exact Hadd|exact Hroot|exact Hh| |].
    + etrans; [exact H1|]. vm_compute. reflexivity.
    + etrans; [exact H2|]. vm_compute. reflexivity.
Defined.
